(** * The credentials service of the runtime interface emulator

    A verification development for [lambda/core/credentials.go]: a token-keyed
    credential cache guarded by two mutexes, one protecting the contents and
    one serving as a gate that stalls readers while a rotation is in progress.

    The Go methods are embedded as programs over a small set of atomic
    actions (mutex operations, loads and stores of the struct fields, map
    accesses, the clock).  The same program text is given two readings: run
    alone from start to end ([run]), and interleaved with other calls in a
    pool of goroutines ([step]). *)

From Stdlib Require Import ZArith String Decimal DecimalString.
From stdpp Require Import base gmap strings list fin_maps.

Local Open Scope Z_scope.

(** ** Data model *)

(** [time.Time] and [time.Duration] are counted in nanoseconds; the
    calendar side of [time.Time] plays no role here. *)
Definition Minute : Z := 60 * 1000000000.

(** const ( UNBLOCKED = iota; BLOCKED ) *)
Definition UNBLOCKED : Z := 0.
Definition BLOCKED : Z := 1.

(** The value an [error] carries is its message. *)
Inductive error : Type :=
| errorString (msg : string).

(** The verb [%d] applied to an [int]. *)
Definition fmt_d (n : Z) : string := NilZero.string_of_int (Z.to_int n).

Definition ErrCredentialsNotFound : error :=
  errorString "credentials not found for the provided token".

Record Credentials : Type := mkCredentials {
  AwsKey : string;
  AwsSecret : string;
  AwsSession : string;
  Expiration : Z
}.

(** The struct behind the [CredentialsService] interface.  A [sync.Mutex]
    has no owner: it is locked ([true]) or not. *)
Record credentialsServiceImpl : Type := mkService {
  credentials : gmap string Credentials;
  contentMutex : bool;
  serviceMutex : bool;
  currentState : Z
}.

(** What a call can touch: the receiver, the cells that hold the values
    handed out by pointer, and the wall clock. *)
Record World : Type := mkWorld {
  this : credentialsServiceImpl;
  heap : list Credentials;
  clock : Z
}.

Definition NewCredentialsService : credentialsServiceImpl :=
  {| credentials := ∅;
     contentMutex := false;
     serviceMutex := false;
     currentState := UNBLOCKED |}.

Inductive mutex : Type := contentM | serviceM.

Definition locked (m : mutex) (c : credentialsServiceImpl) : bool :=
  match m with
  | contentM => contentMutex c
  | serviceM => serviceMutex c
  end.

Definition set_locked (m : mutex) (b : bool) (c : credentialsServiceImpl)
  : credentialsServiceImpl :=
  match m with
  | contentM => mkService (credentials c) b (serviceMutex c) (currentState c)
  | serviceM => mkService (credentials c) (contentMutex c) b (currentState c)
  end.

Definition set_state (v : Z) (c : credentialsServiceImpl) : credentialsServiceImpl :=
  mkService (credentials c) (contentMutex c) (serviceMutex c) v.

Definition set_credentials (m : gmap string Credentials) (c : credentialsServiceImpl)
  : credentialsServiceImpl :=
  mkService m (contentMutex c) (serviceMutex c) (currentState c).

Definition with_this (f : credentialsServiceImpl → credentialsServiceImpl) (w : World)
  : World :=
  mkWorld (f (this w)) (heap w) (clock w).

(** ** Atomic actions *)

(** Besides what the methods do to the struct, the map and the mutexes,
    [Return] is the moment a call returns to its caller; it changes
    nothing. *)

Inductive prim : Type → Type :=
| Lock (m : mutex) : prim unit
| Unlock (m : mutex) : prim unit
| LoadState : prim Z
| StoreState (v : Z) : prim unit
| MapLen : prim Z
| MapRange : prim string
| MapLoad (k : string) : prim (option Credentials)
| MapStore (k : string) (v : Credentials) : prim unit
| Now : prim Z
| New (v : Credentials) : prim nat
| LogInfo (msg : string) : prim unit
| Return : prim unit.

(** How an action, or a whole call, ends: it finishes, it has to wait for a
    mutex somebody else holds, or the runtime aborts the process. *)
Inductive outcome (A : Type) : Type :=
| Done (a : A) (w : World)
| Waits (m : mutex)
| Fatal (msg : string).
Arguments Done {A} a w.
Arguments Waits {A} m.
Arguments Fatal {A} msg.

(** for key := range c.credentials { token = key } : the variable ends up
    holding the key visited last (the zero value on an empty map).  Go
    leaves the order of the visit open; the order of [map_to_list] stands
    for it, and nothing below depends on it beyond maps of one entry. *)
Definition range_last (m : gmap string Credentials) : string :=
  foldl (λ _ kv, kv.1) EmptyString (map_to_list m).

Definition exec {X : Type} (a : prim X) (w : World) : outcome X :=
  match a in prim T return outcome T with
  | Lock m =>
      if locked m (this w) then Waits m
      else Done tt (with_this (set_locked m true) w)
  | Unlock m =>
      if locked m (this w) then Done tt (with_this (set_locked m false) w)
      else Fatal "sync: unlock of unlocked mutex"
  | LoadState => Done (currentState (this w)) w
  | StoreState v => Done tt (with_this (set_state v) w)
  | MapLen => Done (Z.of_nat (size (credentials (this w)))) w
  | MapRange => Done (range_last (credentials (this w))) w
  | MapLoad k => Done (credentials (this w) !! k) w
  | MapStore k v =>
      Done tt (with_this (λ c, set_credentials (<[k := v]> (credentials c)) c) w)
  | Now => Done (clock w) w
  | New v => Done (length (heap w)) (mkWorld (this w) (heap w ++ [v]) (clock w))
  | LogInfo _ => Done tt w
  | Return => Done tt w
  end.

(** ** Programs *)

Inductive prog (A : Type) : Type :=
| Ret (a : A)
| Step {X : Type} (a : prim X) (k : X → prog A).
Arguments Ret {A} a.
Arguments Step {A X} a k.

Fixpoint bind {A B : Type} (p : prog A) (f : A → prog B) : prog B :=
  match p with
  | Ret a => f a
  | Step a k => Step a (λ x, bind (k x) f)
  end.

#[global] Instance prog_ret : MRet prog := @Ret.
#[global] Instance prog_bind : MBind prog := λ A B f p, bind p f.

Definition act {X : Type} (a : prim X) : prog X := Step a Ret.

(** A call that runs with nobody else around. *)
Fixpoint run {A : Type} (p : prog A) (w : World) : outcome A :=
  match p with
  | Ret a => Done a w
  | Step a k =>
      match exec a w with
      | Done x w' => run (k x) w'
      | Waits m => Waits m
      | Fatal s => Fatal s
      end
  end.

(** ** The methods *)

(** Deferred calls are written where they run: after the result has been
    computed, last deferred first. *)

Definition SetCredentials (token awsKey awsSecret awsSession : string) : prog unit :=
  act (Lock contentM);;
  now ← act Now;
  act (MapStore token
         {| AwsKey := awsKey;
            AwsSecret := awsSecret;
            AwsSession := awsSession;
            Expiration := now + 16 * Minute |});;
  act (Unlock contentM).

Definition GetCredentials (token : string) : prog (option nat * option error) :=
  act (Lock serviceM);;
  act (Lock contentM);;
  found ← act (MapLoad token);
  match found with
  | Some credentials =>
      p ← act (New credentials);
      act (Unlock contentM);;
      act (Unlock serviceM);;
      mret (Some p, None)
  | None =>
      act (Unlock contentM);;
      act (Unlock serviceM);;
      mret (None, Some ErrCredentialsNotFound)
  end.

Definition BlockService : prog unit :=
  st ← act LoadState;
  if st =? BLOCKED then mret tt
  else
    act (LogInfo "blocking the credentials service");;
    act (Lock serviceM);;
    act (Lock contentM);;
    act (StoreState BLOCKED);;
    act (Unlock contentM).

Definition UnblockService : prog unit :=
  st ← act LoadState;
  if st =? UNBLOCKED then mret tt
  else
    act (LogInfo "unblocking the credentials service");;
    act (Lock contentM);;
    act (StoreState UNBLOCKED);;
    act (Unlock serviceM);;
    act (Unlock contentM).

Definition UpdateCredentials (awsKey awsSecret awsSession : string)
  : prog (option error) :=
  mapSize ← act MapLen;
  if negb (mapSize =? 1) then
    mret (Some (errorString
                  ("there are " +:+ fmt_d mapSize +:+ " set of credentials")))
  else
    token ← act MapRange;
    SetCredentials token awsKey awsSecret awsSession;;
    mret None.

(** ** What a call attempts *)

Inductive label : Type :=
| LLock (m : mutex)
| LUnlock (m : mutex)
| LLoadState
| LStoreState (v : Z)
| LMapLen
| LMapRange
| LMapLoad (k : string)
| LMapStore (k : string) (v : Credentials)
| LNow
| LNew (v : Credentials)
| LLogInfo (msg : string)
| LReturn.

Definition label_of {X : Type} (a : prim X) : label :=
  match a with
  | Lock m => LLock m
  | Unlock m => LUnlock m
  | LoadState => LLoadState
  | StoreState v => LStoreState v
  | MapLen => LMapLen
  | MapRange => LMapRange
  | MapLoad k => LMapLoad k
  | MapStore k v => LMapStore k v
  | Now => LNow
  | New v => LNew v
  | LogInfo s => LLogInfo s
  | Return => LReturn
  end.

(** The actions a call running alone reaches, in order, the one it gets
    stuck on included. *)
Fixpoint attempts {A : Type} (p : prog A) (w : World) : list label :=
  match p with
  | Ret _ => []
  | Step a k =>
      label_of a ::
      match exec a w with
      | Done x w' => attempts (k x) w'
      | _ => []
      end
  end.

(** The same world when the clock reads [t]. *)
Definition at_time (t : Z) (w : World) : World :=
  mkWorld (this w) (heap w) t.

(** A store through a pointer handed out earlier: *p = v. *)
Definition poke (p : nat) (v : Credentials) (w : World) : World :=
  mkWorld (this w) (<[p := v]> (heap w)) (clock w).

(** The entries of the store filed under one token. *)
Definition entries_for (token : string) (m : gmap string Credentials)
  : list (string * Credentials) :=
  filter (λ kv, kv.1 = token) (map_to_list m).

(** ** Goroutines calling into the service *)

Inductive call : Type :=
| CallSet (token awsKey awsSecret awsSession : string)
| CallGet (token : string)
| CallUpdate (awsKey awsSecret awsSession : string)
| CallBlock
| CallUnblock.

Inductive retval : Type :=
| RetUnit
| RetGet (r : option nat * option error)
| RetErr (e : option error).

(** What a goroutine runs for a call: the method, then the return to the
    caller.  The return is a step of its own: it comes after the deferred
    unlocks, and other goroutines can act in between. *)
Definition body (f : call) : prog retval :=
  match f with
  | CallSet token k s ss =>
      SetCredentials token k s ss;; act Return;; mret RetUnit
  | CallGet token =>
      r ← GetCredentials token; act Return;; mret (RetGet r)
  | CallUpdate k s ss =>
      e ← UpdateCredentials k s ss; act Return;; mret (RetErr e)
  | CallBlock => BlockService;; act Return;; mret RetUnit
  | CallUnblock => UnblockService;; act Return;; mret RetUnit
  end.

(** A goroutine is the call it was started for and what is left of it. *)
Record goroutine : Type := mkGoroutine {
  called : call;
  code : prog retval
}.

Record config : Type := mkConfig {
  world : World;
  pool : list goroutine;
  crashed : bool
}.

Definition init (t0 : Z) : config :=
  mkConfig (mkWorld NewCredentialsService [] t0) [] false.

(** What can happen next: somebody issues a call, the scheduler lets one
    goroutine perform its next action, or time passes. *)
Inductive event : Type :=
| Go (f : call)
| Sched (i : nat)
| Tick (d : nat).

Definition step (c : config) (e : event) : option config :=
  if crashed c then None
  else
    match e with
    | Go f => Some (mkConfig (world c) (pool c ++ [mkGoroutine f (body f)]) false)
    | Tick d =>
        Some (mkConfig (at_time (clock (world c) + Z.of_nat d) (world c)) (pool c) false)
    | Sched i =>
        match pool c !! i with
        | None => None
        | Some g =>
            match code g with
            | Ret _ => None
            | Step a k =>
                match exec a (world c) with
                | Done x w' =>
                    Some (mkConfig w' (<[i := mkGoroutine (called g) (k x)]> (pool c))
                            false)
                | Waits _ => None
                | Fatal _ => Some (mkConfig (world c) (pool c) true)
                end
            end
        end
    end.

Fixpoint steps (c : config) (es : list event) : option config :=
  match es with
  | [] => Some c
  | e :: es' =>
      match step c e with
      | Some c' => steps c' es'
      | None => None
      end
  end.

(** The call has returned: its return step has been performed. *)
Definition finished (g : goroutine) : bool :=
  match code g with
  | Ret _ => true
  | Step _ _ => false
  end.

Definition result (g : goroutine) : option retval :=
  match code g with
  | Ret r => Some r
  | Step _ _ => None
  end.

Definition is_get (g : goroutine) : bool :=
  match called g with
  | CallGet _ => true
  | _ => false
  end.

Definition is_block (g : goroutine) : bool :=
  match called g with
  | CallBlock => true
  | _ => false
  end.

Definition is_unblock (g : goroutine) : bool :=
  match called g with
  | CallUnblock => true
  | _ => false
  end.

(** The [UnblockService] calls that have been issued and have not
    returned. *)
Definition unblocks_in_flight (c : config) : nat :=
  length (filter (λ g, is_unblock g && negb (finished g) = true) (pool c)).

(** Along the run no two [UnblockService] calls overlap. *)
Fixpoint orderly (c : config) (es : list event) : bool :=
  (unblocks_in_flight c <=? 1)%nat &&
  match es with
  | [] => true
  | e :: es' =>
      match step c e with
      | Some c' => orderly c' es'
      | None => true
      end
  end.

Definition unblock_turn (c : config) (e : event) : bool :=
  match e with
  | Sched i =>
      match pool c !! i with
      | Some g => is_unblock g
      | None => false
      end
  | _ => false
  end.

(** Along the run no [UnblockService] call gets to perform an action. *)
Fixpoint no_unblock_runs (c : config) (es : list event) : bool :=
  match es with
  | [] => true
  | e :: es' =>
      negb (unblock_turn c e) &&
      match step c e with
      | Some c' => no_unblock_runs c' es'
      | None => true
      end
  end.

(** Goroutine [i] is a [BlockService] call that has returned. *)
Definition block_returned (c : config) (i : nat) : bool :=
  match pool c !! i with
  | Some g => is_block g && finished g
  | None => false
  end.

(** Goroutine [i] is a [GetCredentials] call that has returned. *)
Definition get_returned (c : config) (i : nat) : bool :=
  match pool c !! i with
  | Some g => is_get g && finished g
  | None => false
  end.

(** ** Where a goroutine stands *)

(** The first action of a program, and the action a goroutine performs
    when it is scheduled next. *)
Definition head {A : Type} (p : prog A) : option label :=
  match p with
  | Ret _ => None
  | Step a _ => Some (label_of a)
  end.

Definition next (g : goroutine) : option label := head (code g).

(** [residual p q]: [q] is what is left of [p] after some of its actions. *)
Fixpoint residual {A : Type} (p q : prog A) : Prop :=
  match p with
  | Ret a => q = Ret a
  | Step a k => q = Step a k ∨ ∃ x, residual (k x) q
  end.

Definition next_of {A : Type} (p q : prog A) : Prop :=
  match p with
  | Ret _ => False
  | Step a k => ∃ x, q = k x
  end.

(** Between taking the gate and giving it up.  A [BlockService] call gives
    it up to the state flag when it stores BLOCKED; an [UnblockService]
    call takes it over from the flag when it stores UNBLOCKED. *)
Definition holds_gate (g : goroutine) : bool :=
  match called g, next g with
  | CallGet _, Some (LLock contentM) => true
  | CallGet _, Some (LMapLoad _) => true
  | CallGet _, Some (LNew _) => true
  | CallGet _, Some (LUnlock _) => true
  | CallBlock, Some (LLock contentM) => true
  | CallBlock, Some (LStoreState _) => true
  | CallUnblock, Some (LUnlock serviceM) => true
  | _, _ => false
  end.

(** Between locking and unlocking the content mutex. *)
Definition in_content (g : goroutine) : bool :=
  match called g, next g with
  | _, Some LNow => true
  | _, Some (LMapStore _ _) => true
  | _, Some (LMapLoad _) => true
  | _, Some (LNew _) => true
  | _, Some (LStoreState _) => true
  | _, Some (LUnlock contentM) => true
  | CallUnblock, Some (LUnlock serviceM) => true
  | _, _ => false
  end.

(** An [UnblockService] call that has read BLOCKED and not yet stored
    UNBLOCKED. *)
Definition committed (g : goroutine) : bool :=
  match called g, next g with
  | CallUnblock, Some (LLogInfo _) => true
  | CallUnblock, Some (LLock contentM) => true
  | CallUnblock, Some (LStoreState _) => true
  | _, _ => false
  end.

(** A [BlockService] call that has stored BLOCKED and not yet returned. *)
Definition pending (g : goroutine) : bool :=
  match called g, next g with
  | CallBlock, Some (LUnlock contentM) => true
  | _, _ => false
  end.

(** Who the gate is held for: nobody, the state flag, or a goroutine. *)
Inductive keeper : Type :=
| Nobody
| Flag
| Goroutine (i : nat).

Definition kept (k : keeper) : bool :=
  match k with
  | Nobody => false
  | _ => true
  end.

Definition within (k : keeper) (n : nat) : Prop :=
  match k with
  | Goroutine i => (i < n)%nat
  | _ => True
  end.

Definition gate_after (l : label) (i : nat) (k : keeper) : keeper :=
  match l with
  | LLock serviceM => Goroutine i
  | LUnlock serviceM => Nobody
  | LStoreState v => if v =? BLOCKED then Flag else Goroutine i
  | _ => k
  end.

Definition content_after (l : label) (i : nat) (k : keeper) : keeper :=
  match l with
  | LLock contentM => Goroutine i
  | LUnlock contentM => Nobody
  | _ => k
  end.

Definition goroutine_ok (c : config) (gate content : keeper) (j : nat) (g : goroutine)
  : Prop :=
  residual (body (called g)) (code g) ∧
  (holds_gate g = true ↔ gate = Goroutine j) ∧
  (in_content g = true ↔ content = Goroutine j) ∧
  (committed g = true → currentState (this (world c)) = BLOCKED) ∧
  (pending g = true → currentState (this (world c)) = BLOCKED).

(** What every configuration reached by a careful run satisfies (see
    [careful] below; runs in which no two [UnblockService] calls overlap
    are careful). *)
Definition inv (c : config) : Prop :=
  ∃ gate content : keeper,
    crashed c = false ∧
    (currentState (this (world c)) = UNBLOCKED ∨
     currentState (this (world c)) = BLOCKED) ∧
    serviceMutex (this (world c)) = kept gate ∧
    (currentState (this (world c)) = BLOCKED ↔ gate = Flag) ∧
    contentMutex (this (world c)) = kept content ∧
    content ≠ Flag ∧
    within gate (length (pool c)) ∧
    within content (length (pool c)) ∧
    ∀ j g, pool c !! j = Some g → goroutine_ok c gate content j g.

(** The [UnblockService] calls that have found the state BLOCKED and have
    not stored UNBLOCKED yet. *)
Definition unblocks_committed (c : config) : nat :=
  length (filter (λ g, committed g = true) (pool c)).

(** Along the run at most one [UnblockService] call at a time is between
    finding the state BLOCKED and storing UNBLOCKED. *)
Fixpoint careful (c : config) (es : list event) : bool :=
  (unblocks_committed c <=? 1)%nat &&
  match es with
  | [] => true
  | e :: es' =>
      match step c e with
      | Some c' => careful c' es'
      | None => true
      end
  end.

(** Nothing is left of the call but its return, or it has returned. *)
Definition leaving (g : goroutine) : bool :=
  match next g with
  | Some LReturn => true
  | None => true
  | _ => false
  end.

(** Goroutine [i] is a [GetCredentials] call that has given the gate
    back. *)
Definition get_leaving (c : config) (i : nat) : bool :=
  match pool c !! i with
  | Some g => is_get g && leaving g
  | None => false
  end.

(** ** Sample runs *)

(** A store with one token, everything unlocked. *)
Definition one_token : World :=
  mkWorld (mkService {["tok1" := mkCredentials "AK" "SK" "ST" 7]}
             false false UNBLOCKED) [] 0.

(** A rotation under way: one write, then a [BlockService] call that has
    stored BLOCKED and still holds the content mutex. *)
Definition rotation_before : list event :=
  [Go (CallSet "tok1" "AK" "SK" "ST");
   Sched 0; Sched 0; Sched 0; Sched 0; Sched 0;
   Go CallBlock; Sched 1; Sched 1; Sched 1; Sched 1; Sched 1].

(** Before a [BlockService] call is issued: one write has returned, and an
    [UnblockService] call (1) has been issued and has done nothing yet. *)
Definition block_history : list event :=
  [Go (CallSet "tok1" "AK" "SK" "ST");
   Sched 0; Sched 0; Sched 0; Sched 0; Sched 0;
   Go CallUnblock].

(** The [BlockService] call (2) from its first action to its return, with
    a reader (3) issued meanwhile. *)
Definition block_call : list event :=
  [Sched 2; Sched 2; Sched 2; Go (CallGet "tok1");
   Sched 2; Sched 2; Sched 2; Sched 2].

(** After the [BlockService] call has returned: a reader (4) and a writer
    (5) are issued, the writer runs and returns, time passes, another
    writer (6) is issued. *)
Definition rotation_after : list event :=
  [Go (CallGet "tok1"); Tick 5; Go (CallSet "tok2" "A" "B" "C");
   Sched 5; Sched 5; Go (CallSet "tok3" "D" "E" "F");
   Sched 5; Sched 5; Sched 5].

(** Two [UnblockService] calls (1 and 2) both read BLOCKED before either
    stores; a reader (3) takes the gate between their two unlocks; both
    calls return. *)
Definition race_history : list event :=
  [Go CallBlock;
   Sched 0; Sched 0; Sched 0; Sched 0; Sched 0; Sched 0; Sched 0;
   Go CallUnblock; Go CallUnblock; Sched 1; Sched 2;
   Sched 1; Sched 1; Sched 1; Sched 1; Sched 1; Sched 1;
   Go (CallGet "tok1"); Sched 3;
   Sched 2; Sched 2; Sched 2; Sched 2; Sched 2; Sched 2].

(** A second [BlockService] call (4), from its first action to its
    return. *)
Definition race_block : list event :=
  [Sched 4; Sched 4; Sched 4; Sched 4; Sched 4; Sched 4; Sched 4].

(** After that call has returned: a new reader (5) is issued, the old
    reader finishes and unlocks the gate on its way out, and the new
    reader goes through and returns. *)
Definition race_after : list event :=
  [Go (CallGet "tok1");
   Sched 3; Sched 3; Sched 3; Sched 3; Sched 3;
   Sched 5; Sched 5; Sched 5; Sched 5; Sched 5; Sched 5].

(** A single [UnblockService] call (1) reads BLOCKED while a
    [BlockService] call (0) still holds the content mutex, and does all
    its work between that call's deferred unlock and its return. *)
Definition late_unblock : list event :=
  [Sched 0; Sched 0; Sched 0; Sched 0; Sched 0;
   Go CallUnblock; Sched 1; Sched 1;
   Sched 0;
   Sched 1; Sched 1; Sched 1; Sched 1; Sched 1;
   Sched 0].

(** A reader (2) issued after that [BlockService] call has returned. *)
Definition late_reader : list event :=
  [Go (CallGet "tok1");
   Sched 2; Sched 2; Sched 2; Sched 2; Sched 2; Sched 2].

(** The rotation scenario from start to end: write, read, block, a second
    read is issued; then the rotation updates the credentials, unblocks,
    and the second read runs. *)
Definition scenario_blocked : list event :=
  [Go (CallSet "tok1" "AK" "SK" "ST");
   Sched 0; Sched 0; Sched 0; Sched 0; Sched 0;
   Go (CallGet "tok1");
   Sched 1; Sched 1; Sched 1; Sched 1; Sched 1; Sched 1; Sched 1;
   Go CallBlock;
   Sched 2; Sched 2; Sched 2; Sched 2; Sched 2; Sched 2; Sched 2;
   Go (CallGet "tok1")].

Definition scenario_resumed : list event :=
  [Tick 9;
   Go (CallUpdate "AK2" "SK2" "ST2");
   Sched 4; Sched 4; Sched 4; Sched 4; Sched 4; Sched 4; Sched 4;
   Go CallUnblock;
   Sched 5; Sched 5; Sched 5; Sched 5; Sched 5; Sched 5; Sched 5;
   Sched 3; Sched 3; Sched 3; Sched 3; Sched 3; Sched 3; Sched 3].

(** ** Waiting *)

(** A goroutine whose next action is to lock the gate. *)
Definition waits_gate (g : goroutine) : bool :=
  match next g with
  | Some (LLock serviceM) => true
  | _ => false
  end.

(** Nothing is left for the goroutine to do here but wait for the gate. *)
Definition idle (g : goroutine) : bool := finished g || waits_gate g.

(** The action locks or unlocks the gate, or stores the state flag. *)
Definition touches_gate (l : label) : bool :=
  match l with
  | LLock serviceM | LUnlock serviceM | LStoreState _ => true
  | _ => false
  end.

(** ** Running a call alone *)

Lemma run_bind {A B : Type} (p : prog A) (f : A → prog B) (w : World) :
  run (bind p f) w =
  match run p w with
  | Done a w' => run (f a) w'
  | Waits m => Waits m
  | Fatal s => Fatal s
  end.
Proof.
  revert w. induction p as [a | X a k IH]; intros w; simpl; [done |].
  destruct (exec a w); auto.
Qed.

Ltac unfold_calls :=
  unfold UpdateCredentials, SetCredentials, GetCredentials, BlockService,
    UnblockService, mbind, prog_bind, mret, prog_ret, act, at_time, poke,
    with_this.

Ltac fields :=
  cbn [this heap clock credentials contentMutex serviceMutex currentState
       with_this at_time poke set_credentials set_locked set_state locked
       fst snd] in *.

Ltac open_world w :=
  destruct w as [[? ? ? ?] ? ?]; simpl in *; subst.

Lemma SetCredentials_run (w : World) (token k s ss : string) :
  contentMutex (this w) = false →
  run (SetCredentials token k s ss) w =
  Done tt (with_this (λ c,
    set_credentials
      (<[token := mkCredentials k s ss (clock w + 16 * Minute)]> (credentials c)) c) w).
Proof. intros H. open_world w. reflexivity. Qed.

Lemma GetCredentials_run (w : World) (token : string) :
  contentMutex (this w) = false →
  serviceMutex (this w) = false →
  run (GetCredentials token) w =
  match credentials (this w) !! token with
  | Some v =>
      Done (Some (length (heap w)), None) (mkWorld (this w) (heap w ++ [v]) (clock w))
  | None => Done (None, Some ErrCredentialsNotFound) w
  end.
Proof.
  intros Hc Hs. open_world w. unfold_calls. cbn.
  destruct (_ !! token); reflexivity.
Qed.

Lemma size_one_singleton (m : gmap string Credentials) :
  size m = 1%nat → ∃ k v, m = {[k := v]}.
Proof.
  rewrite <- length_map_to_list. intros H.
  destruct (map_to_list m) as [| [k v] [| ? ?]] eqn:E; simplify_eq/=.
  exists k, v. rewrite <- (list_to_map_to_list m), E. reflexivity.
Qed.

Lemma range_last_singleton (k : string) (v : Credentials) :
  range_last {[k := v]} = k.
Proof. unfold range_last. by rewrite map_to_list_singleton. Qed.

Lemma filter_key_absent (token : string) (l : list (string * Credentials)) :
  token ∉ l.*1 → filter (λ kv, kv.1 = token) l = [].
Proof.
  induction l as [| [k x] l IH]; [done |].
  rewrite fmap_cons, not_elem_of_cons, filter_cons. simpl. intros [Hne Hl].
  rewrite decide_False by done. by apply IH.
Qed.

Lemma filter_key_present (token : string) (v : Credentials)
    (l : list (string * Credentials)) :
  NoDup (l.*1) → (token, v) ∈ l → filter (λ kv, kv.1 = token) l = [(token, v)].
Proof.
  induction l as [| [k x] l IH]; [by intros _ ?%elem_of_nil |].
  rewrite fmap_cons, NoDup_cons, elem_of_cons, filter_cons. simpl.
  intros [Hk Hnd] [[= <- <-] | Hin].
  - rewrite decide_True by done. f_equal. by apply filter_key_absent.
  - rewrite decide_False; [by apply IH |].
    intros ->. apply Hk. by apply (list_elem_of_fmap_2 fst _ (token, v)).
Qed.

Lemma entries_for_present (token : string) (v : Credentials)
    (m : gmap string Credentials) :
  m !! token = Some v → entries_for token m = [(token, v)].
Proof.
  intros Hm. apply filter_key_present.
  - apply NoDup_fst_map_to_list.
  - by apply elem_of_map_to_list.
Qed.

Lemma UpdateCredentials_refuses (w : World) (k s ss : string) :
  size (credentials (this w)) ≠ 1%nat →
  run (UpdateCredentials k s ss) w =
  Done (Some (errorString
                ("there are " +:+ fmt_d (Z.of_nat (size (credentials (this w))))
                 +:+ " set of credentials"))) w.
Proof.
  intros Hn. unfold_calls. cbn.
  destruct (Z.eqb_spec (Z.of_nat (size (credentials (this w)))) 1) as [E | _];
    [lia | reflexivity].
Qed.

(** ** The methods, one call at a time *)

(** C2: [UpdateCredentials] refuses, with the entry count in the message,
    unless the store holds exactly one token ("there are 0 set of
    credentials" on an empty store, "there are 2 set of credentials" on a
    store of two); with exactly one token it returns nil and the store
    holds, under that same token, the new fields and an expiration of the
    current time plus 16 minutes. *)
Theorem UpdateCredentials_spec (w : World) (k s ss : string) :
  let n := size (credentials (this w)) in
  (n ≠ 1%nat →
     run (UpdateCredentials k s ss) w =
     Done (Some (errorString
                   ("there are " +:+ fmt_d (Z.of_nat n) +:+ " set of credentials"))) w) ∧
  (n = 0%nat →
     run (UpdateCredentials k s ss) w =
     Done (Some (errorString "there are 0 set of credentials")) w) ∧
  (n = 2%nat →
     run (UpdateCredentials k s ss) w =
     Done (Some (errorString "there are 2 set of credentials")) w) ∧
  (n = 1%nat → contentMutex (this w) = false →
     ∃ token old,
       credentials (this w) = {[token := old]} ∧
       run (UpdateCredentials k s ss) w =
       Done None
         (with_this (set_credentials
            {[token := mkCredentials k s ss (clock w + 16 * Minute)]}) w)).
Proof.
  intros n.
  assert (Herr := UpdateCredentials_refuses w k s ss). fold n in Herr.
  split; [exact Herr |]. split; [| split].
  - intros Hn. rewrite Herr by lia. by rewrite Hn.
  - intros Hn. rewrite Herr by lia. by rewrite Hn.
  - intros Hn Hc. subst n.
    destruct (size_one_singleton _ Hn) as (token & old & Hm).
    exists token, old. split; [done |].
    clear Herr. open_world w. unfold_calls. cbn [bind run exec this credentials].
    rewrite map_size_singleton. simpl. rewrite range_last_singleton.
    unfold with_this, set_locked, set_credentials. simpl.
    by rewrite insert_singleton_eq.
Qed.

Lemma UpdateCredentials_spec_witness :
  run (UpdateCredentials "AK2" "SK2" "ST2") (mkWorld NewCredentialsService [] 0)
    = Done (Some (errorString "there are 0 set of credentials"))
        (mkWorld NewCredentialsService [] 0) ∧
  ∃ token old,
    credentials (this one_token) = {[token := old]} ∧
    run (UpdateCredentials "AK2" "SK2" "ST2") one_token =
    Done None
      (with_this (set_credentials
         {[token := mkCredentials "AK2" "SK2" "ST2" (clock one_token + 16 * Minute)]})
         one_token).
Proof.
  split.
  - apply (UpdateCredentials_spec (mkWorld NewCredentialsService [] 0)
             "AK2" "SK2" "ST2"). reflexivity.
  - apply (UpdateCredentials_spec one_token "AK2" "SK2" "ST2"); reflexivity.
Defined.

(** C3: a [SetCredentials] immediately followed by a [GetCredentials] for
    the same token, with both mutexes free, hands out a pointer to a
    credential carrying the written access key, secret key and session
    token, and the clock reading of the write plus 16 minutes. *)
Theorem SetCredentials_then_GetCredentials
    (w : World) (token k s ss : string) (later : Z) :
  contentMutex (this w) = false →
  serviceMutex (this w) = false →
  ∃ w1 w2 p,
    run (SetCredentials token k s ss) w = Done tt w1 ∧
    run (GetCredentials token) (at_time later w1) = Done (Some p, None) w2 ∧
    heap w2 !! p = Some (mkCredentials k s ss (clock w + 16 * Minute)).
Proof.
  intros Hc Hs. eexists _, _, _. split; [by apply SetCredentials_run |].
  rewrite GetCredentials_run by done. fields. rewrite lookup_insert_eq.
  split; [reflexivity |]. fields.
  rewrite lookup_app_r by done. by rewrite Nat.sub_diag.
Qed.

Lemma SetCredentials_then_GetCredentials_witness :
  ∃ w1 w2 p,
    run (SetCredentials "tok1" "AK" "SK" "ST")
        (mkWorld NewCredentialsService [] 1000) = Done tt w1 ∧
    run (GetCredentials "tok1") (at_time 1005 w1) = Done (Some p, None) w2 ∧
    heap w2 !! p = Some (mkCredentials "AK" "SK" "ST" (1000 + 16 * Minute)).
Proof.
  apply (SetCredentials_then_GetCredentials
           (mkWorld NewCredentialsService [] 1000) "tok1" "AK" "SK" "ST" 1005);
    reflexivity.
Defined.

(** C4: with both mutexes free [GetCredentials] returns; whenever it
    returns, its error is [ErrCredentialsNotFound] exactly when the store
    has no entry for the token, and it is nil otherwise, in which case a
    pointer is handed out. *)
Theorem GetCredentials_not_found_iff (w : World) (token : string) :
  (contentMutex (this w) = false → serviceMutex (this w) = false →
     ∃ r w', run (GetCredentials token) w = Done r w') ∧
  (∀ r w', run (GetCredentials token) w = Done r w' →
     (r.2 = Some ErrCredentialsNotFound ↔ credentials (this w) !! token = None) ∧
     (∀ e, r.2 = Some e → e = ErrCredentialsNotFound) ∧
     (r.2 = None ↔ is_Some r.1)).
Proof.
  split.
  - intros Hc Hs. rewrite GetCredentials_run by done.
    destruct (_ !! token); eauto.
  - intros r w'. open_world w. unfold_calls. cbn.
    destruct serviceMutex0, contentMutex0; cbn; try discriminate.
    destruct (_ !! token) eqn:E; cbn; intros [= <- <-]; simpl;
      (split; [| split]); try split; try done; try (intros [? [=]]).
    by intros e [= <-].
Qed.

Lemma GetCredentials_not_found_iff_witness :
  ∃ r w', run (GetCredentials "nobody") (mkWorld NewCredentialsService [] 0)
          = Done r w'.
Proof.
  apply (GetCredentials_not_found_iff (mkWorld NewCredentialsService [] 0) "nobody");
    reflexivity.
Defined.

(** C5: two [SetCredentials] for one token leave exactly one entry under
    that token, and a [GetCredentials] that follows sees the values of the
    second write. *)
Theorem SetCredentials_twice
    (w : World) (token k1 s1 ss1 k2 s2 ss2 : string) (t2 t3 : Z) :
  contentMutex (this w) = false →
  ∃ w1 w2,
    run (SetCredentials token k1 s1 ss1) w = Done tt w1 ∧
    run (SetCredentials token k2 s2 ss2) (at_time t2 w1) = Done tt w2 ∧
    entries_for token (credentials (this w2))
      = [(token, mkCredentials k2 s2 ss2 (t2 + 16 * Minute))] ∧
    size (credentials (this w2)) = size (credentials (this w1)) ∧
    (serviceMutex (this w) = false →
       ∃ p w3,
         run (GetCredentials token) (at_time t3 w2) = Done (Some p, None) w3 ∧
         heap w3 !! p = Some (mkCredentials k2 s2 ss2 (t2 + 16 * Minute))).
Proof.
  intros Hc. eexists _, _. split; [by apply SetCredentials_run |].
  rewrite SetCredentials_run by done.
  split; [reflexivity |]. fields. rewrite insert_insert_eq.
  split; [apply entries_for_present, lookup_insert_eq |].
  split.
  - by rewrite !map_size_insert.
  - intros Hs. rewrite GetCredentials_run by done. fields.
    rewrite lookup_insert_eq. eexists _, _. split; [reflexivity |]. fields.
    rewrite lookup_app_r by done. by rewrite Nat.sub_diag.
Qed.

Lemma SetCredentials_twice_witness :
  ∃ w1 w2,
    run (SetCredentials "tok1" "AK" "SK" "ST")
        (mkWorld NewCredentialsService [] 1000) = Done tt w1 ∧
    run (SetCredentials "tok1" "AK2" "SK2" "ST2") (at_time 2000 w1) = Done tt w2 ∧
    entries_for "tok1" (credentials (this w2))
      = [("tok1", mkCredentials "AK2" "SK2" "ST2" (2000 + 16 * Minute))] ∧
    size (credentials (this w2)) = size (credentials (this w1)) ∧
    (serviceMutex (this (mkWorld NewCredentialsService [] 1000)) = false →
       ∃ p w3,
         run (GetCredentials "tok1") (at_time 3000 w2) = Done (Some p, None) w3 ∧
         heap w3 !! p = Some (mkCredentials "AK2" "SK2" "ST2" (2000 + 16 * Minute))).
Proof.
  apply (SetCredentials_twice (mkWorld NewCredentialsService [] 1000)
           "tok1" "AK" "SK" "ST" "AK2" "SK2" "ST2" 2000 3000).
  reflexivity.
Defined.

Lemma BlockService_run (w : World) :
  run BlockService w =
  if currentState (this w) =? BLOCKED then Done tt w
  else if serviceMutex (this w) then Waits serviceM
  else if contentMutex (this w) then Waits contentM
  else Done tt (with_this (λ c, mkService (credentials c) false true BLOCKED) w).
Proof.
  open_world w. unfold_calls. cbn.
  destruct (_ =? BLOCKED); [done |]. cbn.
  destruct serviceMutex0; [done |]. cbn.
  destruct contentMutex0; done.
Qed.

Lemma BlockService_attempts_blocked (w : World) :
  currentState (this w) = BLOCKED → attempts BlockService w = [LLoadState].
Proof. intros H. open_world w. reflexivity. Qed.

(** C6: when a [BlockService] has returned, the state is BLOCKED, and a
    second [BlockService] right after it returns as well, changes nothing
    and attempts nothing beyond reading the state: it does not try to take
    the gate, which the first call left locked. *)
Theorem BlockService_twice (w : World) :
  (contentMutex (this w) = false → serviceMutex (this w) = false →
     ∃ w1, run BlockService w = Done tt w1) ∧
  (∀ w1, run BlockService w = Done tt w1 →
     currentState (this w1) = BLOCKED ∧
     (currentState (this w) ≠ BLOCKED → serviceMutex (this w1) = true) ∧
     run BlockService w1 = Done tt w1 ∧
     attempts BlockService w1 = [LLoadState]).
Proof.
  split.
  - intros Hc Hs. rewrite BlockService_run, Hc, Hs.
    destruct (_ =? BLOCKED); eauto.
  - intros w1. rewrite BlockService_run.
    destruct (Z.eqb_spec (currentState (this w)) BLOCKED) as [E | E].
    + intros [= <-]. rewrite BlockService_run, E.
      by auto using BlockService_attempts_blocked.
    + destruct (serviceMutex (this w)); [done |].
      destruct (contentMutex (this w)); [done |].
      intros [= <-]. rewrite BlockService_run. fields.
      by auto using BlockService_attempts_blocked.
Qed.

Lemma BlockService_twice_witness :
  ∃ w1, run BlockService (mkWorld NewCredentialsService [] 0) = Done tt w1.
Proof.
  apply (BlockService_twice (mkWorld NewCredentialsService [] 0)); reflexivity.
Defined.

(** C7: [UnblockService] called while the state is UNBLOCKED returns,
    leaves everything as it was, and attempts nothing beyond reading the
    state: the gate is not unlocked and the runtime has nothing to abort
    on. *)
Theorem UnblockService_when_unblocked (w : World) :
  currentState (this w) = UNBLOCKED →
  run UnblockService w = Done tt w ∧
  attempts UnblockService w = [LLoadState] ∧
  LUnlock serviceM ∉ attempts UnblockService w.
Proof.
  intros H. open_world w.
  split; [reflexivity |]. split; [reflexivity |].
  cbn. by intros [=]%list_elem_of_singleton.
Qed.

Lemma UnblockService_when_unblocked_witness :
  run UnblockService (mkWorld NewCredentialsService [] 0)
    = Done tt (mkWorld NewCredentialsService [] 0) ∧
  attempts UnblockService (mkWorld NewCredentialsService [] 0) = [LLoadState] ∧
  LUnlock serviceM ∉ attempts UnblockService (mkWorld NewCredentialsService [] 0).
Proof.
  apply (UnblockService_when_unblocked (mkWorld NewCredentialsService [] 0)).
  reflexivity.
Defined.

Lemma GetCredentials_returns (w w1 : World) (token : string)
    (r : option nat * option error) :
  run (GetCredentials token) w = Done r w1 →
  contentMutex (this w) = false ∧ serviceMutex (this w) = false.
Proof.
  open_world w. unfold_calls. cbn.
  destruct serviceMutex0; [done |]. cbn.
  destruct contentMutex0; done.
Qed.

(** C8: the pointer [GetCredentials] hands out designates a fresh cell
    holding a copy of the stored value.  Storing anything through that
    pointer leaves the store as it was, and a later [GetCredentials] for
    the token hands out, in another cell, the value originally stored. *)
Theorem GetCredentials_copy
    (w w1 : World) (token : string) (p : nat) (e : option error)
    (scribble : Credentials) :
  run (GetCredentials token) w = Done (Some p, e) w1 →
  ∃ v,
    credentials (this w) !! token = Some v ∧
    heap w !! p = None ∧
    heap w1 !! p = Some v ∧
    this (poke p scribble w1) = this w ∧
    heap (poke p scribble w1) !! p = Some scribble ∧
    ∃ p' w2,
      run (GetCredentials token) (poke p scribble w1) = Done (Some p', None) w2 ∧
      p' ≠ p ∧
      heap w2 !! p' = Some v ∧
      this w2 = this w.
Proof.
  intros Hrun. destruct (GetCredentials_returns _ _ _ _ Hrun) as [Hc Hs].
  rewrite GetCredentials_run in Hrun by done.
  destruct (credentials (this w) !! token) as [v |] eqn:Hv; [| done].
  injection Hrun as <- <- <-. exists v. fields.
  split; [done |].
  split; [by apply lookup_ge_None_2 |].
  assert (Hp : (heap w ++ [v]) !! length (heap w) = Some v).
  { rewrite lookup_app_r by done. by rewrite Nat.sub_diag. }
  split; [done |]. split; [done |].
  split.
  { apply list_lookup_insert_eq. rewrite length_app. simpl. lia. }
  rewrite GetCredentials_run by done. fields. rewrite Hv.
  eexists _, _. split; [reflexivity |]. fields.
  rewrite length_insert, length_app. simpl.
  split; [lia |]. split; [| done].
  rewrite lookup_app_r by (rewrite length_insert, length_app; simpl; lia).
  rewrite length_insert, length_app. simpl.
  by replace (length (heap w) + 1 - (length (heap w) + 1))%nat with 0%nat by lia.
Qed.

Lemma GetCredentials_copy_witness :
  ∃ v,
    credentials (this one_token) !! "tok1" = Some v ∧
    heap one_token !! 0%nat = None ∧
    heap (mkWorld (this one_token) [mkCredentials "AK" "SK" "ST" 7] 0) !! 0%nat
      = Some v ∧
    this (poke 0 (mkCredentials "X" "Y" "Z" 0)
            (mkWorld (this one_token) [mkCredentials "AK" "SK" "ST" 7] 0))
      = this one_token ∧
    heap (poke 0 (mkCredentials "X" "Y" "Z" 0)
            (mkWorld (this one_token) [mkCredentials "AK" "SK" "ST" 7] 0)) !! 0%nat
      = Some (mkCredentials "X" "Y" "Z" 0) ∧
    ∃ p' w2,
      run (GetCredentials "tok1")
        (poke 0 (mkCredentials "X" "Y" "Z" 0)
           (mkWorld (this one_token) [mkCredentials "AK" "SK" "ST" 7] 0))
      = Done (Some p', None) w2 ∧
      p' ≠ 0%nat ∧
      heap w2 !! p' = Some v ∧
      this w2 = this one_token.
Proof.
  apply (GetCredentials_copy one_token
           (mkWorld (this one_token) [mkCredentials "AK" "SK" "ST" 7] 0)
           "tok1" 0%nat None (mkCredentials "X" "Y" "Z" 0)).
  reflexivity.
Defined.

(** C9: a [SetCredentials] for one token leaves the entry of every other
    token, and the state flag, as they were. *)
Theorem SetCredentials_frame (w : World) (t t' k s ss : string) :
  t ≠ t' →
  contentMutex (this w) = false →
  ∃ w',
    run (SetCredentials t k s ss) w = Done tt w' ∧
    credentials (this w') !! t' = credentials (this w) !! t' ∧
    currentState (this w') = currentState (this w).
Proof.
  intros Hne Hc. eexists. split; [by apply SetCredentials_run |].
  fields. by rewrite lookup_insert_ne.
Qed.

Lemma SetCredentials_frame_witness :
  ∃ w',
    run (SetCredentials "tok1" "AK" "SK" "ST")
      (mkWorld (mkService {["tok2" := mkCredentials "A" "B" "C" 7]}
                  false true BLOCKED) [] 0) = Done tt w' ∧
    credentials (this w') !! "tok2"
      = credentials (this (mkWorld (mkService {["tok2" := mkCredentials "A" "B" "C" 7]}
                                      false true BLOCKED) [] 0)) !! "tok2" ∧
    currentState (this w')
      = currentState (this (mkWorld (mkService {["tok2" := mkCredentials "A" "B" "C" 7]}
                                       false true BLOCKED) [] 0)).
Proof.
  apply (SetCredentials_frame
           (mkWorld (mkService {["tok2" := mkCredentials "A" "B" "C" 7]}
                       false true BLOCKED) [] 0) "tok1" "tok2" "AK" "SK" "ST");
    [discriminate | reflexivity].
Defined.

(** C10: [UpdateCredentials] returns an error exactly when the store does
    not hold exactly one token, and a call that returns an error leaves
    the store, the state flag and everything else untouched. *)
Theorem UpdateCredentials_error_frame (w : World) (k s ss : string) :
  (size (credentials (this w)) ≠ 1%nat →
     ∃ e, run (UpdateCredentials k s ss) w = Done (Some e) w) ∧
  (∀ e w', run (UpdateCredentials k s ss) w = Done (Some e) w' →
     size (credentials (this w)) ≠ 1%nat ∧ w' = w).
Proof.
  split.
  - intros Hn. eexists. by apply UpdateCredentials_refuses.
  - intros e w'. unfold_calls. cbn [bind run exec].
    destruct (Z.eqb_spec (Z.of_nat (size (credentials (this w)))) 1) as [E | E];
      cbn [negb bind run exec].
    + destruct (locked contentM (this w)); cbn; discriminate.
    + intros [= <- <-]. split; [lia | done].
Qed.

Lemma UpdateCredentials_error_frame_witness :
  ∃ e, run (UpdateCredentials "AK" "SK" "ST") (mkWorld NewCredentialsService [] 0)
       = Done (Some e) (mkWorld NewCredentialsService [] 0).
Proof.
  apply (UpdateCredentials_error_frame (mkWorld NewCredentialsService [] 0)
           "AK" "SK" "ST").
  vm_compute. discriminate.
Defined.

(** ** Goroutines running side by side *)

Lemma residual_refl {A : Type} (p : prog A) : residual p p.
Proof. destruct p; simpl; auto. Qed.

Lemma residual_next {A : Type} (p q q' : prog A) :
  residual p q → next_of q q' → residual p q'.
Proof.
  induction p as [a | X a k IH]; simpl.
  - intros -> [].
  - intros [-> | [x Hx]] Hq.
    + destruct Hq as [x ->]. right. exists x. apply residual_refl.
    + right. exists x. by apply IH.
Qed.

Lemma filter_at_most_one {A : Type} (P : A → Prop) `{!∀ x, Decision (P x)}
    (l : list A) (i j : nat) (x y : A) :
  (length (filter P l) ≤ 1)%nat →
  l !! i = Some x → l !! j = Some y → P x → P y → i = j.
Proof.
  revert i j. induction l as [| z l IH]; intros i j Hlen Hi Hj Hx Hy; [done |].
  rewrite filter_cons in Hlen.
  assert (Hnone : P z → ∀ n u, l !! n = Some u → P u → False).
  { intros Hz n u Hn Hu. rewrite decide_True in Hlen by done. simpl in Hlen.
    assert (u ∈ filter P l) as Hin.
    { apply list_elem_of_filter. split; [done |]. by eapply list_elem_of_lookup_2. }
    destruct (filter P l); [by apply elem_of_nil in Hin | simpl in Hlen; lia]. }
  destruct i as [| i], j as [| j]; simplify_eq/=; try done.
  - exfalso. eauto.
  - exfalso. eauto.
  - f_equal. apply IH; try done. destruct (decide (P z)); simpl in Hlen; lia.
Qed.

Lemma committed_unique (c : config) (i j : nat) (g g' : goroutine) :
  (unblocks_committed c <=? 1)%nat = true →
  pool c !! i = Some g → pool c !! j = Some g' →
  committed g = true → committed g' = true →
  i = j.
Proof.
  intros Hle%Nat.leb_le Hi Hj Hg Hg'.
  by eapply (filter_at_most_one _ _ _ _ _ _ Hle Hi Hj).
Qed.

Lemma committed_in_flight (g : goroutine) :
  committed g = true → is_unblock g && negb (finished g) = true.
Proof.
  destruct g as [f q]. unfold committed, is_unblock, finished, next, head. simpl.
  destruct f, q; simpl; try done.
Qed.

Lemma filter_length_mono {A : Type} (P Q : A → Prop)
    `{!∀ x, Decision (P x)} `{!∀ x, Decision (Q x)} (l : list A) :
  (∀ x, P x → Q x) → (length (filter P l) ≤ length (filter Q l))%nat.
Proof.
  intros HPQ. induction l as [| x l IH]; [done |].
  rewrite !filter_cons.
  destruct (decide (P x)) as [HP | HP].
  - rewrite decide_True by auto. simpl. lia.
  - destruct (decide (Q x)); simpl; lia.
Qed.

(** If no two [UnblockService] calls overlap, at most one of them is
    between its test and its store. *)
Lemma in_flight_committed (c : config) :
  (unblocks_in_flight c <=? 1)%nat = true →
  (unblocks_committed c <=? 1)%nat = true.
Proof.
  intros Hle%Nat.leb_le. apply Nat.leb_le. etrans; [| exact Hle].
  apply filter_length_mono. intros g. apply committed_in_flight.
Qed.

Lemma fresh_goroutine (f : call) :
  let g := mkGoroutine f (body f) in
  holds_gate g = false ∧ in_content g = false ∧
  committed g = false ∧ pending g = false ∧ finished g = false.
Proof. destruct f; repeat split; reflexivity. Qed.

Lemma inv_init (t0 : Z) : inv (init t0).
Proof.
  exists Nobody, Nobody. simpl. repeat split; try done; auto.
Qed.

(** A goroutine scheduled alone does what [run] says. *)
Lemma solo_run (f : call) (p : prog retval) (w w' : World) (r : retval) :
  run p w = Done r w' →
  ∃ n, steps (mkConfig w [mkGoroutine f p] false) (replicate n (Sched 0))
       = Some (mkConfig w' [mkGoroutine f (Ret r)] false).
Proof.
  revert w. induction p as [a | X a k IH]; simpl; intros w Hrun.
  - injection Hrun as <- <-. by exists 0%nat.
  - destruct (exec a w) as [x w1 | |] eqn:E; try done.
    destruct (IH x w1 Hrun) as [n Hn]. exists (S n). simpl.
    unfold step at 1. simpl. by rewrite E.
Qed.

Ltac walk H :=
  cbn in H;
  lazymatch type of H with
  | _ ∨ _ => destruct H as [H | H]; [| walk H]
  | ∃ _, _ => destruct H as [? H]; walk H
  | residual ?p _ =>
      lazymatch p with
      | context [if ?b then _ else _] => destruct b eqn:?; walk H
      | context [match ?o with Some _ => _ | None => _ end] =>
          destruct o eqn:?; walk H
      end
  | _ => idtac
  end.

Lemma within_mono (k : keeper) (n m : nat) :
  within k n → (n ≤ m)%nat → within k m.
Proof. destruct k; simpl; auto with lia. Qed.

Lemma inv_go (c c' : config) (f : call) :
  inv c → step c (Go f) = Some c' → inv c'.
Proof.
  intros (gate & content & Hal & Hst & Hsv & Hfl & Hcm & Hcf & Hgw & Hcw & Hall) Hstep.
  unfold step in Hstep. rewrite Hal in Hstep. injection Hstep as <-.
  exists gate, content. simpl. repeat (split; [done |]).
  rewrite length_app. simpl.
  split; [eapply within_mono; [done | lia] |].
  split; [eapply within_mono; [done | lia] |].
  intros j g [Hj | [Hlen Hj]]%lookup_app_Some.
  - apply Hall in Hj. done.
  - destruct (j - length (pool c))%nat eqn:E; [| done]. injection Hj as <-.
    destruct (fresh_goroutine f) as (Hg & Hc & Hco & Hp & _).
    unfold goroutine_ok. rewrite Hg, Hc, Hco, Hp. simpl.
    split; [apply residual_refl |].
    repeat split; try done; intros ->; simpl in *; lia.
Qed.

Lemma inv_tick (c c' : config) (d : nat) :
  inv c → step c (Tick d) = Some c' → inv c'.
Proof.
  intros (gate & content & Hal & Hrest) Hstep.
  unfold step in Hstep. rewrite Hal in Hstep. injection Hstep as <-.
  exists gate, content. done.
Qed.

Lemma pending_in_content (g : goroutine) :
  pending g = true → in_content g = true.
Proof.
  destruct g as [f q]. unfold pending, in_content, next, head. simpl.
  destruct f, q as [| ? []]; simpl; try done; by destruct m.
Qed.

Lemma kept_false (k : keeper) : false = kept k → k = Nobody.
Proof. by destruct k. Qed.

Lemma kept_true_goroutine (k : keeper) : true = kept k → k ≠ Flag → ∃ i, k = Goroutine i.
Proof. destruct k; naive_solver. Qed.

Lemma iff_true_l (P : Prop) : (true = true ↔ P) → P.
Proof. intros [H _]. by apply H. Qed.

Lemma iff_false_l (P : Prop) : (false = true ↔ P) → ¬ P.
Proof. intros [_ H] HP. by specialize (H HP). Qed.

Ltac norm H :=
  lazymatch type of H with
  | true = true ↔ _ => apply iff_true_l in H
  | false = true ↔ _ => apply iff_false_l in H
  | true = true → _ => specialize (H eq_refl)
  | false = true → _ => clear H
  | ∀ j g, _ → true = true → _ => specialize (λ j g Hj, H j g Hj eq_refl)
  | ∀ j g, _ → false = true → _ => clear H
  end.

Ltac split_step H :=
  repeat match type of H with
    | context [if ?b then _ else _] => destruct b eqn:?
    end;
  cbn in H; try discriminate H.

(** The invariant survives every action, provided an [UnblockService]
    call only ever acts while no other one is between its test and its
    store. *)
Lemma inv_sched (c c' : config) (i : nat) :
  inv c →
  (unblock_turn c (Sched i) = true → (unblocks_committed c <=? 1)%nat = true) →
  step c (Sched i) = Some c' → inv c'.
Proof.
  intros (gate & content & Hal & Hst & Hsv & Hfl & Hcm & Hcf & Hgw & Hcw & Hall)
    Hord Hstep.
  unfold step in Hstep. rewrite Hal in Hstep.
  destruct (pool c !! i) as [[f q] |] eqn:Hi; [| done].
  unfold unblock_turn in Hord. rewrite Hi in Hord. unfold is_unblock in Hord.
  pose proof (λ Hu j g', committed_unique c i j _ g' (Hord Hu) Hi) as Huniq.
  pose proof (lookup_lt_Some _ _ _ Hi) as Hlt.
  destruct (Hall _ _ Hi) as (Hshape & Hgate & Hcont & Hcomm & Hpend).
  pose proof Hshape as Hsh.
  destruct c as [[[creds cm sv st] hp clk] pl cr].
  unfold goroutine_ok in Hall.
  unfold holds_gate, in_content, committed, pending, next, head in Hgate, Hcont, Hcomm, Hpend.
  cbn [world pool crashed this credentials contentMutex serviceMutex currentState
       called code] in *.
  clear Hord.
  destruct f; walk Hshape; subst q.
  all: cbn in Hstep, Hgate, Hcont, Hcomm, Hpend, Huniq.
  all: split_step Hstep.
  all: subst.
  all: norm Hgate; norm Hcont; norm Hcomm; norm Hpend; norm Huniq;
       try norm Huniq.
  all: try (exfalso; subst; simpl in *; congruence).
  all: injection Hstep as <-.
  all: match goal with
       | Hi : _ !! _ = Some {| called := _; code := Step ?a _ |} |- _ =>
           let l := eval cbn in (label_of a) in
           exists (gate_after l i gate), (content_after l i content)
       end.
  all: cbn.
  all: rewrite length_insert.
  all: split_and!; try done.
  all: try (by destruct gate; simplify_eq/=; intuition (auto; congruence)).
  all: intros j g [(<- & <- & _) | (Hne & Hj)]%list_lookup_insert_Some.
  all: try (destruct (Hall _ _ Hj) as (Hs & Hg & Hc & Hco & Hp)).
  all: unfold goroutine_ok.
  all: (split; [first [exact Hs | eapply residual_next; [exact Hsh | cbn; first [by exists tt | by eexists | idtac]]] |]).
  all: try match goal with
           | Heq : context [?v =? _] |- ∃ x : Z, _ =>
               exists v; cbn; rewrite Heq; reflexivity
           end.
  all: try (pose proof (pending_in_content g);
            try specialize (Huniq j g Hj);
            clear Hall Hsh Hi;
            destruct gate, content; simplify_eq/=;
            by intuition (auto; congruence)).
  all: unfold holds_gate, in_content, committed, pending, next, head.
  all: cbn.
  all: try by intuition (auto; congruence).
  all: try match goal with
           | |- context [?m !! ?k] => destruct (m !! k)
           end.
  all: try match goal with
           | H : (_ =? _) = false |- _ => apply Z.eqb_neq in H
           end.
  all: cbn.
  all: by intuition (auto; congruence).
Qed.

Lemma inv_step (c c' : config) (e : event) :
  inv c →
  (unblock_turn c e = true → (unblocks_committed c <=? 1)%nat = true) →
  step c e = Some c' → inv c'.
Proof.
  destruct e; eauto using inv_go, inv_sched, inv_tick.
Qed.

Lemma inv_careful_steps (es : list event) (c c' : config) :
  inv c → careful c es = true → steps c es = Some c' → inv c'.
Proof.
  revert c. induction es as [| e es IH]; intros c Hinv Hord Hsteps; simpl in *.
  - by injection Hsteps as <-.
  - apply andb_prop in Hord as [Hle Hord].
    destruct (step c e) as [c1 |] eqn:Hstep; [| done].
    eapply IH; [| done..]. eapply inv_step; [done | | done]. done.
Qed.

Lemma orderly_careful (es : list event) (c : config) :
  orderly c es = true → careful c es = true.
Proof.
  revert c. induction es as [| e es IH]; intros c; simpl;
    intros [Hle Ho]%andb_prop; apply andb_true_intro;
    (split; [by apply in_flight_committed |]); [done |].
  destruct (step c e); auto.
Qed.

Lemma inv_steps (es : list event) (c c' : config) :
  inv c → orderly c es = true → steps c es = Some c' → inv c'.
Proof. eauto using inv_careful_steps, orderly_careful. Qed.

(** Only [BlockService] and [UnblockService] store into the state flag,
    the one BLOCKED and the other UNBLOCKED. *)
Lemma stores_state (f : call) (q : prog retval) (v : Z) :
  residual (body f) q → head q = Some (LStoreState v) →
  (f = CallBlock ∧ v = BLOCKED) ∨ (f = CallUnblock ∧ v = UNBLOCKED).
Proof.
  intros H Hq. destruct f; walk H; subst q; simplify_eq/=; auto.
Qed.

(** In [GetCredentials] the return comes right after the unlock of the
    gate. *)
Lemma get_leaves_by_unlock (token : string) (q q' : prog retval) :
  residual (body (CallGet token)) q → next_of q q' →
  head q' = Some LReturn → head q = Some (LUnlock serviceM).
Proof.
  intros H Hq Hq'. walk H; subst q; simpl in *; try done;
    destruct Hq as [y ->]; try done; by destruct y.
Qed.

(** A call has returned only after its return step. *)
Lemma returns_by_return (f : call) (q q' : prog retval) :
  residual (body f) q → next_of q q' → head q' = None →
  head q = Some LReturn.
Proof.
  intros H Hq Hq'. destruct f; walk H; subst q; simpl in *; try done;
    destruct Hq as [y Hy]; subst q'; simpl in *; try done;
    try (by destruct y);
    by repeat match goal with
       | H : context [if ?b then _ else _] |- _ => destruct b
       end.
Qed.

Lemma exec_state {X : Type} (a : prim X) (w w' : World) (x : X) :
  exec a w = Done x w' →
  currentState (this w') = currentState (this w) ∨
  label_of a = LStoreState (currentState (this w')).
Proof.
  destruct a; simpl; try (intros [= <- <-]; auto).
  - destruct (locked _ _); [done |]. intros [= <- <-]. destruct m; auto.
  - destruct (locked _ _); [| done]. intros [= <- <-]. destruct m; auto.
Qed.

Lemma finished_head (g : goroutine) : finished g = true ↔ head (code g) = None.
Proof. unfold finished, head. by destruct (code g). Qed.

Lemma finished_leaving (g : goroutine) : finished g = true → leaving g = true.
Proof. intros H%finished_head. unfold leaving, next. by rewrite H. Qed.

Lemma fresh_not_leaving (f : call) : leaving (mkGoroutine f (body f)) = false.
Proof. by destruct f. Qed.

(** As long as no [UnblockService] call acts, a [BlockService] call that
    has nothing left but its return, or has returned, leaves the state
    BLOCKED behind. *)
Lemma block_leaving_step (c c' : config) (e : event) (b : nat) :
  inv c →
  (∀ g, pool c !! b = Some g → is_block g = true → leaving g = true →
        currentState (this (world c)) = BLOCKED) →
  unblock_turn c e = false →
  step c e = Some c' →
  ∀ g, pool c' !! b = Some g → is_block g = true → leaving g = true →
       currentState (this (world c')) = BLOCKED.
Proof.
  intros (gate & content & Hal & Hst & Hsv & Hfl & Hcm & Hcf & Hgw & Hcw & Hall)
    Hlv Hturn Hstep.
  unfold step in Hstep. rewrite Hal in Hstep.
  destruct e as [f | i | d].
  - injection Hstep as <-. simpl.
    intros g [Hg | [_ Hg]]%lookup_app_Some; [by apply Hlv |].
    destruct (b - length (pool c))%nat; [| done]. injection Hg as <-.
    by rewrite fresh_not_leaving.
  - simpl in Hturn.
    destruct (pool c !! i) as [[f q] |] eqn:Hi; [| done].
    pose proof (lookup_lt_Some _ _ _ Hi) as Hlt.
    destruct (Hall _ _ Hi) as (Hshape & _ & _ & _ & Hpend).
    destruct (decide (i = b)) as [-> | Hne].
    + specialize (Hlv _ Hi).
      unfold pending, leaving, is_block, next, head in Hpend, Hlv |- *.
      destruct c as [[[creds cm sv st] hp clk] pl cr].
      cbn [world pool crashed this credentials contentMutex serviceMutex
           currentState called code] in *.
      destruct f; walk Hshape; subst q.
      all: cbn in Hstep, Hpend, Hlv.
      all: split_step Hstep.
      all: injection Hstep as <-.
      all: cbn [pool world].
      all: rewrite ?list_lookup_insert_eq by done.
      all: intros g Hg; try (injection Hg as <-); cbn; try done.
      all: try (intros _ _; by apply Hpend).
      all: try (intros _ _; by apply Hlv).
      all: try (intros _ _; by apply Z.eqb_eq).
      all: rewrite Hi in Hg; injection Hg as <-; cbn; try done.
      all: by apply Hlv.
    + destruct q as [r | X a k]; [done |]. simpl in Hstep.
      destruct (exec a (world c)) as [x w' | m | msg] eqn:Hexec; [| done |].
      * injection Hstep as <-. simpl. intros g Hg Hb Hl.
        rewrite list_lookup_insert_ne in Hg by done.
        specialize (Hlv _ Hg Hb Hl).
        destruct (exec_state _ _ _ _ Hexec) as [-> | Hlabel]; [done |].
        destruct (stores_state f (Step a k) (currentState (this w')))
          as [[_ ?] | [Hf _]]; [done | by simpl; rewrite Hlabel | done |].
        unfold is_unblock in Hturn. simpl in Hturn. by rewrite Hf in Hturn.
      * injection Hstep as <-. done.
  - injection Hstep as <-. done.
Qed.

(** While the state flag reads BLOCKED and no [UnblockService] call acts,
    the flag stays BLOCKED and no [GetCredentials] call gets past the
    gate. *)
Lemma quiet_step (c c' : config) (e : event) :
  inv c → currentState (this (world c)) = BLOCKED →
  unblock_turn c e = false → step c e = Some c' →
  currentState (this (world c')) = BLOCKED ∧
  ∀ j, get_leaving c' j = true → get_leaving c j = true.
Proof.
  intros (gate & content & Hal & Hst & Hsv & Hfl & Hcm & Hcf & Hgw & Hcw & Hall)
    Hblocked Hturn Hstep.
  unfold step in Hstep. rewrite Hal in Hstep. unfold get_leaving.
  destruct e as [f | i | d].
  - injection Hstep as <-. simpl. split; [done |]. intros j.
    destruct (decide (j < length (pool c))%nat) as [Hj | Hj].
    + by rewrite lookup_app_l.
    + rewrite lookup_app_r by lia.
      destruct (j - length (pool c))%nat; simpl; [| done].
      rewrite fresh_not_leaving. by rewrite andb_false_r.
  - simpl in Hturn.
    destruct (pool c !! i) as [g |] eqn:Hi; [| done].
    destruct (Hall _ _ Hi) as (Hshape & Hgate & _).
    destruct (code g) as [r | X a k] eqn:Hcode; [done |].
    destruct (exec a (world c)) as [x w' | m | msg] eqn:Hexec; [| done |].
    + injection Hstep as <-. simpl. split.
      * destruct (exec_state _ _ _ _ Hexec) as [-> | Hlabel]; [done |].
        destruct (stores_state (called g) (Step a k) (currentState (this w')))
          as [[_ ?] | [Hf _]]; [done | by simpl; rewrite Hlabel | done |].
        unfold is_unblock in Hturn. by rewrite Hf in Hturn.
      * intros j. destruct (decide (i = j)) as [<- | Hne].
        -- rewrite list_lookup_insert_eq by by eapply lookup_lt_Some.
           rewrite Hi. intros [Hget Hlv]%andb_prop.
           unfold is_get in Hget |- *. simpl in Hget.
           destruct (called g) as [| token | | |] eqn:Hf; try done.
           simpl. unfold leaving, next in Hlv |- *. simpl in Hlv.
           rewrite Hcode.
           destruct (head (k x)) as [l |] eqn:Hk.
           ++ exfalso. destruct l; try done.
              assert (Hh : head (Step a k) = Some (LUnlock serviceM)).
              { eapply get_leaves_by_unlock; [exact Hshape | | exact Hk].
                simpl. eauto. }
              assert (Hg : holds_gate g = true).
              { unfold holds_gate, next. by rewrite Hf, Hcode, Hh. }
              apply Hgate in Hg. apply Hfl in Hblocked. congruence.
           ++ erewrite returns_by_return; [done | exact Hshape | | exact Hk].
              simpl. eauto.
        -- by rewrite list_lookup_insert_ne.
    + injection Hstep as <-. done.
  - injection Hstep as <-. done.
Qed.

Lemma quiet_steps (es : list event) (c c' : config) :
  inv c → currentState (this (world c)) = BLOCKED →
  no_unblock_runs c es = true →
  steps c es = Some c' →
  inv c' ∧ currentState (this (world c')) = BLOCKED ∧
  ∀ j, get_leaving c' j = true → get_leaving c j = true.
Proof.
  revert c. induction es as [| e es IH]; intros c Hinv Hb Hq Hsteps;
    simpl in *.
  - by injection Hsteps as <-.
  - apply andb_prop in Hq as [Hturn%negb_true_iff Hq].
    destruct (step c e) as [c1 |] eqn:Hstep; [| done].
    destruct (quiet_step _ _ _ Hinv Hb Hturn Hstep) as [Hb1 Hget1].
    destruct (IH c1) as (Hinv' & Hb' & Hget'); try done.
    { eapply inv_step; [done | | done]. by rewrite Hturn. }
    auto.
Qed.

(** A [BlockService] call during which no [UnblockService] call acts has
    left the state BLOCKED once it has returned. *)
Lemma block_call_steps (es : list event) (c c' : config) (b : nat) :
  inv c →
  (∀ g, pool c !! b = Some g → is_block g = true → leaving g = true →
        currentState (this (world c)) = BLOCKED) →
  no_unblock_runs c es = true →
  steps c es = Some c' →
  inv c' ∧
  ∀ g, pool c' !! b = Some g → is_block g = true → leaving g = true →
       currentState (this (world c')) = BLOCKED.
Proof.
  revert c. induction es as [| e es IH]; intros c Hinv Hlv Hq Hsteps;
    simpl in *.
  - by injection Hsteps as <-.
  - apply andb_prop in Hq as [Hturn%negb_true_iff Hq].
    destruct (step c e) as [c1 |] eqn:Hstep; [| done].
    apply (IH c1); try done.
    + eapply inv_step; [done | | done]. by rewrite Hturn.
    + by eapply block_leaving_step.
Qed.

(** A [SetCredentials] call that finds the content mutex free runs to its
    end whatever the gate and the state flag say, and touches neither. *)
Lemma set_proceeds (c : config) (s : nat) (token k sk ss : string) :
  crashed c = false →
  contentMutex (this (world c)) = false →
  pool c !! s = Some (mkGoroutine (CallSet token k sk ss)
                                  (body (CallSet token k sk ss))) →
  ∃ c',
    steps c [Sched s; Sched s; Sched s; Sched s; Sched s] = Some c' ∧
    pool c' = <[s := mkGoroutine (CallSet token k sk ss) (Ret RetUnit)]> (pool c) ∧
    credentials (this (world c')) !! token
      = Some (mkCredentials k sk ss (clock (world c) + 16 * Minute)) ∧
    serviceMutex (this (world c')) = serviceMutex (this (world c)) ∧
    currentState (this (world c')) = currentState (this (world c)).
Proof.
  intros Hal Hcm Hs. pose proof (lookup_lt_Some _ _ _ Hs) as Hlt.
  destruct c as [[[creds cm sv st] hp clk] pl cr]. simpl in *. subst.
  eexists. split.
  { unfold step. cbn [crashed pool world]. rewrite Hs. cbn.
    rewrite list_lookup_insert_eq by done. cbn.
    rewrite list_lookup_insert_eq by (by rewrite length_insert). cbn.
    rewrite list_lookup_insert_eq by (by rewrite !length_insert). cbn.
    rewrite list_lookup_insert_eq by (by rewrite !length_insert). cbn.
    reflexivity. }
  cbn. rewrite !list_insert_insert_eq. rewrite lookup_insert_eq. done.
Qed.

Lemma orderly_last (es : list event) (c c' : config) :
  steps c es = Some c' → orderly c es = true →
  (unblocks_in_flight c' <=? 1)%nat = true.
Proof.
  revert c. induction es as [| e es IH]; intros c Hs Ho; simpl in *.
  - injection Hs as <-. by apply andb_prop in Ho as [? _].
  - apply andb_prop in Ho as [_ Ho].
    destruct (step c e) as [c1 |]; [by apply (IH c1) | done].
Qed.

Lemma get_leaving_lt (c : config) (j : nat) :
  get_leaving c j = true → (j < length (pool c))%nat.
Proof.
  unfold get_leaving. destruct (pool c !! j) eqn:E; [| done].
  intros _. by eapply lookup_lt_Some.
Qed.

Lemma get_returned_leaving (c : config) (j : nat) :
  get_returned c j = true → get_leaving c j = true.
Proof.
  unfold get_returned, get_leaving. destruct (pool c !! j) as [g |]; [| done].
  intros [-> Hf]%andb_prop. by rewrite finished_leaving.
Qed.

(** C1, for runs in which at most one [UnblockService] call at a time has
    been between finding the state BLOCKED and storing UNBLOCKED: once a
    [BlockService] call has returned, and for as long as no
    [UnblockService] call has performed any action since that call was
    issued, the state is BLOCKED with the gate locked and the only
    [GetCredentials] calls that return are those that had given the gate
    back before; none issued afterwards returns.  Meanwhile every
    [SetCredentials] call that finds the content mutex free runs to its
    end and writes its entry. *)
Theorem gate_stalls_reads_not_writes
    (t0 : Z) (es0 es1 es2 : list event) (c0 cb c1 c2 : config) :
  steps (init t0) es0 = Some c0 →
  careful (init t0) es0 = true →
  step c0 (Go CallBlock) = Some cb →
  steps cb es1 = Some c1 →
  no_unblock_runs cb es1 = true →
  block_returned c1 (length (pool c0)) = true →
  steps c1 es2 = Some c2 →
  no_unblock_runs c1 es2 = true →
  currentState (this (world c2)) = BLOCKED ∧
  serviceMutex (this (world c2)) = true ∧
  (∀ g, get_returned c2 g = true → get_leaving c1 g = true) ∧
  (∀ g, (length (pool c1) ≤ g)%nat → get_returned c2 g = false) ∧
  (∀ s token k sk ss,
     pool c2 !! s = Some (mkGoroutine (CallSet token k sk ss)
                                      (body (CallSet token k sk ss))) →
     contentMutex (this (world c2)) = false →
     ∃ c3,
       steps c2 [Sched s; Sched s; Sched s; Sched s; Sched s] = Some c3 ∧
       pool c3 !! s = Some (mkGoroutine (CallSet token k sk ss) (Ret RetUnit)) ∧
       credentials (this (world c3)) !! token
         = Some (mkCredentials k sk ss (clock (world c2) + 16 * Minute)) ∧
       currentState (this (world c3)) = BLOCKED ∧
       serviceMutex (this (world c3)) = true ∧
       ∀ g, (length (pool c1) ≤ g)%nat → get_returned c3 g = false).
Proof.
  intros Hes0 Hcare Hgo Hes1 Hq1 Hret Hes2 Hq2.
  assert (Hinv0 : inv c0) by (eapply inv_careful_steps; eauto using inv_init).
  assert (Hinvb : inv cb) by (by eapply inv_go).
  assert (Hpoolb : pool cb = pool c0 ++ [mkGoroutine CallBlock (body CallBlock)]).
  { unfold step in Hgo. destruct (crashed c0); [done |]. by injection Hgo as <-. }
  destruct (block_call_steps es1 cb c1 (length (pool c0))) as [Hinv1 Hlv1];
    try done.
  { intros g. rewrite Hpoolb, lookup_app_r, Nat.sub_diag by done.
    intros [= <-]. done. }
  assert (Hb1 : currentState (this (world c1)) = BLOCKED).
  { unfold block_returned in Hret.
    destruct (pool c1 !! length (pool c0)) as [g |] eqn:Hg; [| done].
    apply andb_prop in Hret as [Hblock Hfin].
    by eapply Hlv1; [| | apply finished_leaving]. }
  destruct (quiet_steps _ _ _ Hinv1 Hb1 Hq2 Hes2) as (Hinv2 & Hb2 & Hget2).
  assert (Hgate : ∀ c, inv c → currentState (this (world c)) = BLOCKED →
                       serviceMutex (this (world c)) = true).
  { intros c (gate & content & _ & _ & Hsv & Hfl & _) Hc.
    apply Hfl in Hc. by rewrite Hsv, Hc. }
  assert (Hlate : ∀ g, (length (pool c1) ≤ g)%nat → get_returned c2 g = false).
  { intros g Hg. destruct (get_returned c2 g) eqn:E; [| done].
    apply get_returned_leaving, Hget2, get_leaving_lt in E. lia. }
  split; [done |]. split; [by apply Hgate |].
  split; [by auto using get_returned_leaving |]. split; [done |].
  intros s token k sk ss Hs Hcm.
  destruct Hinv2 as (gate & content & Hal & Hrest).
  destruct (set_proceeds c2 s token k sk ss Hal Hcm Hs)
    as (c3 & Hsteps & Hpool & Hcred & Hsv & Hst).
  pose proof (lookup_lt_Some _ _ _ Hs) as Hlt.
  exists c3. split; [done |].
  split; [by rewrite Hpool, list_lookup_insert_eq |]. split; [done |].
  split; [congruence |]. split.
  { rewrite Hsv. apply Hgate; [by exists gate, content | done]. }
  intros g Hg. rewrite <- (Hlate g Hg). unfold get_returned. rewrite Hpool.
  destruct (decide (s = g)) as [<- | Hne].
  - by rewrite list_lookup_insert_eq, Hs.
  - by rewrite list_lookup_insert_ne.
Qed.

Lemma gate_stalls_reads_not_writes_witness :
  ∃ c0 cb c1 c2,
    steps (init 0) block_history = Some c0 ∧
    step c0 (Go CallBlock) = Some cb ∧
    steps cb block_call = Some c1 ∧
    steps c1 rotation_after = Some c2 ∧
    currentState (this (world c2)) = BLOCKED ∧
    serviceMutex (this (world c2)) = true ∧
    (∀ g, get_returned c2 g = true → get_leaving c1 g = true) ∧
    (∀ g, (length (pool c1) ≤ g)%nat → get_returned c2 g = false) ∧
    (∀ s token k sk ss,
       pool c2 !! s = Some (mkGoroutine (CallSet token k sk ss)
                                        (body (CallSet token k sk ss))) →
       contentMutex (this (world c2)) = false →
       ∃ c3,
         steps c2 [Sched s; Sched s; Sched s; Sched s; Sched s] = Some c3 ∧
         pool c3 !! s = Some (mkGoroutine (CallSet token k sk ss) (Ret RetUnit)) ∧
         credentials (this (world c3)) !! token
           = Some (mkCredentials k sk ss (clock (world c2) + 16 * Minute)) ∧
         currentState (this (world c3)) = BLOCKED ∧
         serviceMutex (this (world c3)) = true ∧
         ∀ g, (length (pool c1) ≤ g)%nat → get_returned c3 g = false).
Proof.
  eexists _, _, _, _.
  do 4 (split; [vm_compute; reflexivity |]).
  eapply (gate_stalls_reads_not_writes 0 block_history block_call rotation_after);
    vm_compute; reflexivity.
Defined.

(** C1 as stated fails: after two [UnblockService] calls that both found
    the state BLOCKED, a reader that entered between their two unlocks
    releases the gate a later [BlockService] call has taken, and a reader
    issued after that call returned goes through and returns, although no
    [UnblockService] call has performed any action since that
    [BlockService] call was issued. *)
Lemma overlapping_unblocks_open_the_gate :
  ∃ c0 cb c1 c2,
    steps (init 0) race_history = Some c0 ∧
    step c0 (Go CallBlock) = Some cb ∧
    steps cb race_block = Some c1 ∧
    steps c1 race_after = Some c2 ∧
    block_returned c1 4 = true ∧
    currentState (this (world c1)) = BLOCKED ∧
    no_unblock_runs cb race_block = true ∧
    no_unblock_runs c1 race_after = true ∧
    length (pool c1) = 5%nat ∧
    get_returned c1 5 = false ∧
    get_returned c2 5 = true ∧
    careful (init 0) race_history = false.
Proof.
  eexists _, _, _, _.
  do 11 (split; [vm_compute; reflexivity |]).
  vm_compute; reflexivity.
Qed.

(** Why the count starts when the [BlockService] call is issued and not
    when it returns: a single [UnblockService] call that read BLOCKED can
    store UNBLOCKED and unlock the gate between that call's deferred unlock
    and its return; the call then returns with the state UNBLOCKED and the
    gate free, and a reader issued afterwards goes through. *)
Lemma unblock_inside_block_opens_the_gate :
  ∃ cb c1 c2,
    step (init 0) (Go CallBlock) = Some cb ∧
    steps cb late_unblock = Some c1 ∧
    steps c1 late_reader = Some c2 ∧
    orderly (init 0) (Go CallBlock :: late_unblock) = true ∧
    block_returned c1 0 = true ∧
    currentState (this (world c1)) = UNBLOCKED ∧
    serviceMutex (this (world c1)) = false ∧
    no_unblock_runs c1 late_reader = true ∧
    get_returned c2 2 = true.
Proof.
  eexists _, _, _.
  do 8 (split; [vm_compute; reflexivity |]).
  vm_compute; reflexivity.
Qed.

(** The rotation scenario: the read issued while BLOCKED cannot be
    scheduled, and once the rotation has unblocked it sees the rotated
    credentials. *)
Example rotation_end_to_end :
  ∃ c c',
    steps (init 0) scenario_blocked = Some c ∧
    result <$> pool c !! 1%nat = Some (Some (RetGet (Some 0%nat, None))) ∧
    heap (world c) !! 0%nat = Some (mkCredentials "AK" "SK" "ST" (16 * Minute)) ∧
    step c (Sched 3) = None ∧
    steps c scenario_resumed = Some c' ∧
    result <$> pool c' !! 3%nat = Some (Some (RetGet (Some 1%nat, None))) ∧
    heap (world c') !! 1%nat
      = Some (mkCredentials "AK2" "SK2" "ST2" (9 + 16 * Minute)).
Proof.
  eexists _, _.
  do 6 (split; [vm_compute; reflexivity |]).
  vm_compute; reflexivity.
Qed.

(** ** More on single calls *)

Lemma UnblockService_run (w : World) :
  run UnblockService w =
  if currentState (this w) =? UNBLOCKED then Done tt w
  else if contentMutex (this w) then Waits contentM
  else if serviceMutex (this w)
       then Done tt (with_this (λ c, mkService (credentials c) false false UNBLOCKED) w)
       else Fatal "sync: unlock of unlocked mutex".
Proof.
  destruct w as [[creds cm sm st] hp clk]. unfold_calls. cbn.
  destruct (_ =? UNBLOCKED); [done |]. cbn.
  destruct cm; [done |]. cbn.
  destruct sm; done.
Qed.

(** X1: on a service that is UNBLOCKED with both mutexes free,
    [BlockService] returns with the state BLOCKED, the gate locked and the
    content mutex free again, and an [UnblockService] right after it puts
    everything back exactly as it was. *)
Theorem BlockService_then_UnblockService (w : World) :
  currentState (this w) = UNBLOCKED →
  contentMutex (this w) = false →
  serviceMutex (this w) = false →
  ∃ w1,
    run BlockService w = Done tt w1 ∧
    currentState (this w1) = BLOCKED ∧
    serviceMutex (this w1) = true ∧
    contentMutex (this w1) = false ∧
    credentials (this w1) = credentials (this w) ∧
    run UnblockService w1 = Done tt w.
Proof.
  intros Hst Hc Hs.
  exists (with_this (λ c, mkService (credentials c) false true BLOCKED) w).
  split; [by rewrite BlockService_run, Hst, Hc, Hs |].
  fields. repeat (split; [done |]).
  rewrite UnblockService_run. simpl.
  destruct w as [[creds cm sm st] hp clk]. simpl in *. by subst.
Qed.

Lemma BlockService_then_UnblockService_witness :
  ∃ w1,
    run BlockService one_token = Done tt w1 ∧
    currentState (this w1) = BLOCKED ∧
    serviceMutex (this w1) = true ∧
    contentMutex (this w1) = false ∧
    credentials (this w1) = credentials (this one_token) ∧
    run UnblockService w1 = Done tt one_token.
Proof.
  apply (BlockService_then_UnblockService one_token); reflexivity.
Defined.

(** X2: a [GetCredentials] that returns has left the service struct as it
    found it (store, state flag, both mutexes) and the clock alone; the
    cells handed out earlier are untouched, at most one cell is added, and
    none when the token is not found. *)
Theorem GetCredentials_read_only
    (w w' : World) (token : string) (r : option nat * option error) :
  run (GetCredentials token) w = Done r w' →
  this w' = this w ∧
  clock w' = clock w ∧
  (∃ l, heap w' = heap w ++ l ∧ (length l ≤ 1)%nat) ∧
  (r.1 = None → heap w' = heap w) ∧
  (∀ p, r.1 = Some p → p = length (heap w)).
Proof.
  intros Hrun. destruct (GetCredentials_returns _ _ _ _ Hrun) as [Hc Hs].
  rewrite GetCredentials_run in Hrun by done.
  destruct (credentials (this w) !! token) as [v |]; injection Hrun as <- <-;
    fields.
  - split_and!; try done.
    + exists [v]. simpl. split; [done | lia].
    + intros p Hp. by injection Hp as <-.
  - split_and!; try done.
    exists []. split; [by rewrite app_nil_r | simpl; lia].
Qed.

Lemma GetCredentials_read_only_witness :
  this (mkWorld (this one_token) [mkCredentials "AK" "SK" "ST" 7] 0)
    = this one_token ∧
  clock (mkWorld (this one_token) [mkCredentials "AK" "SK" "ST" 7] 0)
    = clock one_token ∧
  (∃ l, heap (mkWorld (this one_token) [mkCredentials "AK" "SK" "ST" 7] 0)
        = heap one_token ++ l ∧ (length l ≤ 1)%nat) ∧
  ((Some 0%nat, @None error).1 = None →
     heap (mkWorld (this one_token) [mkCredentials "AK" "SK" "ST" 7] 0)
     = heap one_token) ∧
  (∀ p, (Some 0%nat, @None error).1 = Some p → p = length (heap one_token)).
Proof.
  apply (GetCredentials_read_only one_token
           (mkWorld (this one_token) [mkCredentials "AK" "SK" "ST" 7] 0)
           "tok1" (Some 0%nat, None)).
  reflexivity.
Defined.

(** X3: once a [BlockService] has returned on a service where BLOCKED
    means the gate is locked, a [GetCredentials] made from the same thread
    of control waits on the gate before touching anything, also after a
    [SetCredentials], which goes through. *)
Theorem GetCredentials_after_BlockService
    (w w1 : World) (token t k s ss : string) :
  run BlockService w = Done tt w1 →
  (currentState (this w) = BLOCKED → serviceMutex (this w) = true) →
  run (GetCredentials token) w1 = Waits serviceM ∧
  attempts (GetCredentials token) w1 = [LLock serviceM] ∧
  (contentMutex (this w1) = false →
     ∃ w2, run (SetCredentials t k s ss) w1 = Done tt w2 ∧
           run (GetCredentials token) w2 = Waits serviceM).
Proof.
  intros Hrun Hok.
  assert (Hgate : serviceMutex (this w1) = true).
  { rewrite BlockService_run in Hrun.
    destruct (Z.eqb_spec (currentState (this w)) BLOCKED) as [E | E].
    - injection Hrun as <-. auto.
    - destruct (serviceMutex (this w)); [done |].
      destruct (contentMutex (this w)); [done |]. by injection Hrun as <-. }
  assert (Hwait : ∀ w', serviceMutex (this w') = true →
            run (GetCredentials token) w' = Waits serviceM ∧
            attempts (GetCredentials token) w' = [LLock serviceM]).
  { intros [[creds cm sm st] hp clk] Hsm. simpl in Hsm. subst sm. done. }
  split; [by apply Hwait |]. split; [by apply Hwait |].
  intros Hc. eexists. split; [by apply SetCredentials_run |].
  by apply Hwait.
Qed.

Lemma GetCredentials_after_BlockService_witness :
  run (GetCredentials "tok1")
    (with_this (λ c, mkService (credentials c) false true BLOCKED) one_token)
    = Waits serviceM ∧
  attempts (GetCredentials "tok1")
    (with_this (λ c, mkService (credentials c) false true BLOCKED) one_token)
    = [LLock serviceM] ∧
  (contentMutex
     (this (with_this (λ c, mkService (credentials c) false true BLOCKED) one_token))
   = false →
   ∃ w2,
     run (SetCredentials "tok2" "A" "B" "C")
       (with_this (λ c, mkService (credentials c) false true BLOCKED) one_token)
     = Done tt w2 ∧
     run (GetCredentials "tok1") w2 = Waits serviceM).
Proof.
  apply (GetCredentials_after_BlockService one_token
           (with_this (λ c, mkService (credentials c) false true BLOCKED) one_token)
           "tok1" "tok2" "A" "B" "C").
  - reflexivity.
  - discriminate.
Defined.



Lemma UpdateCredentials_sole (w : World) (t k s ss : string) (old : Credentials) :
  credentials (this w) = {[t := old]} →
  contentMutex (this w) = false →
  run (UpdateCredentials k s ss) w =
  Done None
    (with_this (set_credentials {[t := mkCredentials k s ss (clock w + 16 * Minute)]}) w).
Proof.
  intros Hm Hc. destruct w as [[creds cm sm st] hp clk]. simpl in *. subst.
  unfold_calls. cbn [bind run exec this credentials].
  rewrite map_size_singleton. simpl. rewrite range_last_singleton.
  unfold with_this, set_locked, set_credentials. simpl.
  by rewrite insert_singleton_eq.
Qed.

Lemma size_two_keys (m : gmap string Credentials) (t t' : string) :
  t' ≠ t → is_Some (m !! t) → is_Some (m !! t') → size m ≠ 1%nat.
Proof.
  intros Hne [v Hv] [v' Hv'] Hs.
  destruct (size_one_singleton m Hs) as (k0 & v0 & ->).
  apply lookup_singleton_Some in Hv as [<- _].
  apply lookup_singleton_Some in Hv' as [<- _]. done.
Qed.

(** X5: after a [SetCredentials] for token [t], an [UpdateCredentials]
    goes through exactly when the store held no other token before the
    write: then it leaves [t] alone in the store with the updated fields;
    if some other token was there it refuses and changes nothing. *)
Theorem UpdateCredentials_after_SetCredentials
    (w : World) (t k s ss k' s' ss' : string) (later : Z) :
  contentMutex (this w) = false →
  ∃ w1,
    run (SetCredentials t k s ss) w = Done tt w1 ∧
    ((∀ t', is_Some (credentials (this w) !! t') → t' = t) →
       run (UpdateCredentials k' s' ss') (at_time later w1) =
       Done None
         (with_this (set_credentials
            {[t := mkCredentials k' s' ss' (later + 16 * Minute)]})
            (at_time later w1))) ∧
    (∀ t', is_Some (credentials (this w) !! t') → t' ≠ t →
       ∃ e, run (UpdateCredentials k' s' ss') (at_time later w1)
            = Done (Some e) (at_time later w1)).
Proof.
  intros Hc. eexists. split; [by apply SetCredentials_run |]. split.
  - intros Halone. eapply UpdateCredentials_sole; [| done]. fields.
    apply map_eq. intros j. destruct (decide (j = t)) as [-> | Hne].
    + by rewrite lookup_insert_eq, lookup_singleton_eq.
    + rewrite lookup_insert_ne, lookup_singleton_ne by done.
      destruct (credentials (this w) !! j) eqn:E; [| done].
      destruct Hne. apply Halone. by rewrite E.
  - intros t' Ht' Hne. eexists. apply UpdateCredentials_refuses. fields.
    apply (size_two_keys _ t t'); [done | |].
    + by rewrite lookup_insert_eq.
    + by rewrite lookup_insert_ne.
Qed.

Lemma UpdateCredentials_after_SetCredentials_witness :
  ∃ w1,
    run (SetCredentials "tok1" "AK1" "SK1" "ST1") one_token = Done tt w1 ∧
    ((∀ t', is_Some (credentials (this one_token) !! t') → t' = "tok1") →
       run (UpdateCredentials "AK2" "SK2" "ST2") (at_time 9 w1) =
       Done None
         (with_this (set_credentials
            {["tok1" := mkCredentials "AK2" "SK2" "ST2" (9 + 16 * Minute)]})
            (at_time 9 w1))) ∧
    (∀ t', is_Some (credentials (this one_token) !! t') → t' ≠ "tok1" →
       ∃ e, run (UpdateCredentials "AK2" "SK2" "ST2") (at_time 9 w1)
            = Done (Some e) (at_time 9 w1)).
Proof.
  apply (UpdateCredentials_after_SetCredentials one_token
           "tok1" "AK1" "SK1" "ST1" "AK2" "SK2" "ST2" 9).
  reflexivity.
Defined.

(** X6: two [SetCredentials] for different tokens can be swapped: when
    each reads the same clock in either order, the service ends up the
    same. *)
Theorem SetCredentials_commute
    (w : World) (t1 k1 s1 ss1 t2 k2 s2 ss2 : string) (a b : Z) :
  t1 ≠ t2 →
  contentMutex (this w) = false →
  ∃ w1 w12 w2 w21,
    run (SetCredentials t1 k1 s1 ss1) (at_time a w) = Done tt w1 ∧
    run (SetCredentials t2 k2 s2 ss2) (at_time b w1) = Done tt w12 ∧
    run (SetCredentials t2 k2 s2 ss2) (at_time b w) = Done tt w2 ∧
    run (SetCredentials t1 k1 s1 ss1) (at_time a w2) = Done tt w21 ∧
    this w12 = this w21 ∧
    credentials (this w12) !! t1 = Some (mkCredentials k1 s1 ss1 (a + 16 * Minute)) ∧
    credentials (this w12) !! t2 = Some (mkCredentials k2 s2 ss2 (b + 16 * Minute)).
Proof.
  intros Hne Hc. eexists _, _, _, _.
  split; [by apply SetCredentials_run |].
  split; [by apply SetCredentials_run |].
  split; [by apply SetCredentials_run |].
  split; [by apply SetCredentials_run |].
  fields. unfold set_credentials. fields.
  split; [f_equal; by apply insert_insert_ne |].
  by rewrite lookup_insert_ne, !lookup_insert_eq.
Qed.

Lemma SetCredentials_commute_witness :
  ∃ w1 w12 w2 w21,
    run (SetCredentials "tok2" "A" "B" "C") (at_time 3 one_token) = Done tt w1 ∧
    run (SetCredentials "tok3" "D" "E" "F") (at_time 5 w1) = Done tt w12 ∧
    run (SetCredentials "tok3" "D" "E" "F") (at_time 5 one_token) = Done tt w2 ∧
    run (SetCredentials "tok2" "A" "B" "C") (at_time 3 w2) = Done tt w21 ∧
    this w12 = this w21 ∧
    credentials (this w12) !! "tok2"
      = Some (mkCredentials "A" "B" "C" (3 + 16 * Minute)) ∧
    credentials (this w12) !! "tok3"
      = Some (mkCredentials "D" "E" "F" (5 + 16 * Minute)).
Proof.
  apply (SetCredentials_commute one_token
           "tok2" "A" "B" "C" "tok3" "D" "E" "F" 3 5);
    [discriminate | reflexivity].
Defined.

(** ** More on goroutines running side by side *)

Lemma exec_keeps {X : Type} (a : prim X) (w w' : World) (x : X) :
  exec a w = Done x w' →
  heap w `prefix_of` heap w' ∧
  dom (credentials (this w)) ⊆ dom (credentials (this w')).
Proof.
  destruct a; simpl; try (intros [= <- <-]; done).
  - destruct (locked _ _); [done |]. intros [= <- <-]. by destruct m.
  - destruct (locked _ _); [| done]. intros [= <- <-]. by destruct m.
  - intros [= <- <-]. simpl. split; [done | apply dom_insert_subseteq].
  - intros [= <- <-]. simpl. split; [by apply prefix_app_r | done].
Qed.

Lemma step_keeps (c c' : config) (e : event) :
  step c e = Some c' →
  heap (world c) `prefix_of` heap (world c') ∧
  dom (credentials (this (world c))) ⊆ dom (credentials (this (world c'))).
Proof.
  unfold step. destruct (crashed c); [done |].
  destruct e as [f | i | d].
  - by intros [= <-].
  - destruct (pool c !! i) as [g |]; [| done].
    destruct (code g) as [r | X a k]; [done |].
    destruct (exec a (world c)) as [x w' | |] eqn:E; [| done |].
    + intros [= <-]. by eapply exec_keeps.
    + by intros [= <-].
  - by intros [= <-].
Qed.

Lemma steps_keep (es : list event) (c c' : config) :
  steps c es = Some c' →
  heap (world c) `prefix_of` heap (world c') ∧
  dom (credentials (this (world c))) ⊆ dom (credentials (this (world c'))).
Proof.
  revert c. induction es as [| e es IH]; intros c; simpl.
  - by intros [= <-].
  - destruct (step c e) as [c1 |] eqn:E; [| done]. intros Hs.
    destruct (step_keeps _ _ _ E) as [H1 H2].
    destruct (IH _ Hs) as [H3 H4]. split; by etrans.
Qed.

(** X7: whatever the goroutines do, in whatever order, no token ever
    leaves the store: a token that has an entry keeps having one. *)
Theorem tokens_never_removed (es : list event) (c c' : config) (t : string) :
  steps c es = Some c' →
  is_Some (credentials (this (world c)) !! t) →
  is_Some (credentials (this (world c')) !! t).
Proof.
  intros Hs Ht. destruct (steps_keep _ _ _ Hs) as [_ Hdom].
  apply elem_of_dom. apply Hdom. by apply elem_of_dom.
Qed.

(** X8: a credential handed out by [GetCredentials] is never changed by
    the service afterwards: whatever the goroutines do, every cell keeps
    its content. *)
Theorem cells_never_change
    (es : list event) (c c' : config) (p : nat) (v : Credentials) :
  steps c es = Some c' →
  heap (world c) !! p = Some v →
  heap (world c') !! p = Some v.
Proof.
  intros Hs Hp. destruct (steps_keep _ _ _ Hs) as [Hpre _].
  by eapply prefix_lookup_Some.
Qed.

Lemma tokens_never_removed_witness :
  ∃ c c',
    steps (init 0) scenario_blocked = Some c ∧
    steps c scenario_resumed = Some c' ∧
    is_Some (credentials (this (world c')) !! "tok1").
Proof.
  eexists _, _.
  split; [vm_compute; reflexivity |].
  match goal with |- steps ?c _ = _ ∧ _ => set (c0 := c) end.
  split; [vm_compute; reflexivity |].
  apply (tokens_never_removed scenario_resumed c0).
  - vm_compute; reflexivity.
  - vm_compute. eexists. reflexivity.
Defined.

Lemma cells_never_change_witness :
  ∃ c c',
    steps (init 0) scenario_blocked = Some c ∧
    steps c scenario_resumed = Some c' ∧
    credentials (this (world c')) !! "tok1"
      = Some (mkCredentials "AK2" "SK2" "ST2" (9 + 16 * Minute)) ∧
    heap (world c') !! 0%nat = Some (mkCredentials "AK" "SK" "ST" (16 * Minute)).
Proof.
  eexists _, _.
  split; [vm_compute; reflexivity |].
  match goal with |- steps ?c _ = _ ∧ _ => set (c0 := c) end.
  split; [vm_compute; reflexivity |].
  split; [vm_compute; reflexivity |].
  apply (cells_never_change scenario_resumed c0); vm_compute; reflexivity.
Defined.

Lemma reached_inv (t0 : Z) (es : list event) (c : config) :
  steps (init t0) es = Some c → orderly (init t0) es = true →
  inv c ∧ (unblocks_in_flight c <=? 1)%nat = true.
Proof.
  intros Hs Ho. split.
  - eapply inv_steps; eauto using inv_init.
  - by eapply orderly_last.
Qed.

(** X9: in a run in which no two [UnblockService] calls have overlapped,
    the process is never aborted: no configuration reached has crashed,
    and no action any goroutine performs next unlocks an unlocked mutex. *)
Theorem orderly_runs_never_crash (t0 : Z) (es : list event) (c : config) :
  steps (init t0) es = Some c →
  orderly (init t0) es = true →
  crashed c = false ∧
  ∀ e c', step c e = Some c' → crashed c' = false.
Proof.
  intros Hs Ho. destruct (reached_inv _ _ _ Hs Ho) as [Hinv Hle].
  split.
  - by destruct Hinv as (? & ? & ? & _).
  - intros e c' Hstep.
    assert (Hinv' : inv c').
    { eapply inv_step; [done | | done]. intros _. by apply in_flight_committed. }
    by destruct Hinv' as (? & ? & ? & _).
Qed.

(** X10: in such a run the state flag is UNBLOCKED or BLOCKED; while it is
    BLOCKED the gate is locked and no goroutine is between taking the gate
    and giving it up (no reader is inside); while the gate is unlocked the
    state is UNBLOCKED. *)
Theorem flag_and_gate_agree (t0 : Z) (es : list event) (c : config) :
  steps (init t0) es = Some c →
  orderly (init t0) es = true →
  (currentState (this (world c)) = UNBLOCKED ∨
   currentState (this (world c)) = BLOCKED) ∧
  (currentState (this (world c)) = BLOCKED →
     serviceMutex (this (world c)) = true ∧
     ∀ i g, pool c !! i = Some g → holds_gate g = false) ∧
  (serviceMutex (this (world c)) = false →
     currentState (this (world c)) = UNBLOCKED).
Proof.
  intros Hs Ho. destruct (reached_inv _ _ _ Hs Ho) as [Hinv _].
  destruct Hinv as (gate & content & _ & Hst & Hsv & Hfl & _ & _ & _ & _ & Hall).
  split; [done |]. split.
  - intros Hb. apply Hfl in Hb as ->. split; [done |].
    intros i g Hi. destruct (Hall _ _ Hi) as (_ & Hg & _).
    destruct (holds_gate g); [| done]. by destruct Hg as [Hg _]; specialize (Hg eq_refl).
  - intros Hfree. destruct Hst as [? | Hb]; [done |].
    apply Hfl in Hb as ->. by rewrite Hsv in Hfree.
Qed.

(** X11: in such a run at most one goroutine at a time is between locking
    and unlocking the content mutex, and the mutex is locked then; the same
    holds of the gate. *)
Theorem one_at_a_time (t0 : Z) (es : list event) (c : config) :
  steps (init t0) es = Some c →
  orderly (init t0) es = true →
  ∀ i j gi gj,
    pool c !! i = Some gi → pool c !! j = Some gj →
    (in_content gi = true →
       contentMutex (this (world c)) = true ∧ (in_content gj = true → i = j)) ∧
    (holds_gate gi = true →
       serviceMutex (this (world c)) = true ∧ (holds_gate gj = true → i = j)).
Proof.
  intros Hs Ho i j gi gj Hi Hj. destruct (reached_inv _ _ _ Hs Ho) as [Hinv _].
  destruct Hinv as (gate & content & _ & _ & Hsv & _ & Hcm & _ & _ & _ & Hall).
  destruct (Hall _ _ Hi) as (_ & Hgi & Hci & _).
  destruct (Hall _ _ Hj) as (_ & Hgj & Hcj & _).
  split.
  - intros ->%Hci. split; [done |]. intros Hc%Hcj. by injection Hc.
  - intros ->%Hgi. split; [done |]. intros Hg%Hgj. by injection Hg.
Qed.

Lemma orderly_runs_never_crash_witness :
  ∃ c,
    steps (init 0) rotation_before = Some c ∧
    crashed c = false ∧
    ∀ e c', step c e = Some c' → crashed c' = false.
Proof.
  eexists. split; [vm_compute; reflexivity |].
  apply (orderly_runs_never_crash 0 rotation_before); vm_compute; reflexivity.
Defined.

Lemma flag_and_gate_agree_witness :
  ∃ c,
    steps (init 0) scenario_blocked = Some c ∧
    (currentState (this (world c)) = UNBLOCKED ∨
     currentState (this (world c)) = BLOCKED) ∧
    (currentState (this (world c)) = BLOCKED →
       serviceMutex (this (world c)) = true ∧
       ∀ i g, pool c !! i = Some g → holds_gate g = false) ∧
    (serviceMutex (this (world c)) = false →
       currentState (this (world c)) = UNBLOCKED).
Proof.
  eexists. split; [vm_compute; reflexivity |].
  apply (flag_and_gate_agree 0 scenario_blocked); vm_compute; reflexivity.
Defined.

Lemma one_at_a_time_witness :
  ∃ c,
    steps (init 0) rotation_before = Some c ∧
    ∀ i j gi gj,
      pool c !! i = Some gi → pool c !! j = Some gj →
      (in_content gi = true →
         contentMutex (this (world c)) = true ∧ (in_content gj = true → i = j)) ∧
      (holds_gate gi = true →
         serviceMutex (this (world c)) = true ∧ (holds_gate gj = true → i = j)).
Proof.
  eexists. split; [vm_compute; reflexivity |].
  apply (one_at_a_time 0 rotation_before); vm_compute; reflexivity.
Defined.

Lemma can_act (c : config) (i : nat) (g : goroutine) (l : label) :
  crashed c = false → pool c !! i = Some g → next g = Some l →
  (∀ m, l = LLock m → locked m (this (world c)) = false) →
  ∃ c', step c (Sched i) = Some c'.
Proof.
  intros Hal Hi Hl Hfree. unfold step. rewrite Hal, Hi.
  unfold next, head in Hl. destruct (code g) as [r | X a k]; [done |].
  injection Hl as <-.
  destruct a; simpl in *; eauto.
  - rewrite (Hfree m eq_refl). eauto.
  - destruct (locked m _); eauto.
Qed.

Lemma in_content_next (g : goroutine) :
  in_content g = true → ∃ l, next g = Some l ∧ ∀ m, l ≠ LLock m.
Proof.
  unfold in_content. destruct (next g) as [l |]; [| by destruct (called g)].
  intros H. exists l. split; [done |]. intros m ->. by destruct (called g), m.
Qed.

Lemma holds_gate_next (g : goroutine) :
  holds_gate g = true → ∃ l, next g = Some l ∧ l ≠ LLock serviceM.
Proof.
  unfold holds_gate. destruct (next g) as [l |]; [| by destruct (called g)].
  intros H. exists l. split; [done |]. intros ->. by destruct (called g).
Qed.

Lemma not_idle (g : goroutine) :
  idle g ≠ true → ∃ l, next g = Some l ∧ l ≠ LLock serviceM.
Proof.
  unfold idle, waits_gate, finished, next, head.
  destruct (code g) as [r | X a k]; simpl; [done |].
  intros H. eexists. split; [done |]. intros E. by rewrite E in H.
Qed.

Lemma idle_cases (g : goroutine) :
  idle g = true → finished g = true ∨ next g = Some (LLock serviceM).
Proof.
  unfold idle, waits_gate. destruct (finished g); [auto |]. simpl.
  destruct (next g) as [l |]; [| done]. destruct l; try done.
  destruct m; [done | auto].
Qed.

(** X12: in a run in which no two [UnblockService] calls have overlapped
    nothing deadlocks but readers and blockers behind a block: at every
    moment either some goroutine can perform its next action, without
    aborting the process, or every call that has not returned is waiting to
    lock the gate while the state is BLOCKED. *)
Theorem waiting_only_while_blocked (t0 : Z) (es : list event) (c : config) :
  steps (init t0) es = Some c →
  orderly (init t0) es = true →
  (∃ i c', step c (Sched i) = Some c' ∧ crashed c' = false) ∨
  (∀ i g, pool c !! i = Some g →
     finished g = true ∨
     (currentState (this (world c)) = BLOCKED ∧ next g = Some (LLock serviceM))).
Proof.
  intros Hs Ho. destruct (reached_inv _ _ _ Hs Ho) as [Hinv Hle].
  assert (Hgo : ∀ i c', step c (Sched i) = Some c' →
            ∃ i c', step c (Sched i) = Some c' ∧ crashed c' = false).
  { intros i c' Hstep. exists i, c'. split; [done |].
    assert (Hinv' : inv c').
    { eapply inv_step; [done | | done]. intros _. by apply in_flight_committed. }
    by destruct Hinv' as (? & ? & ? & _). }
  destruct Hinv as (gate & content & Hal & Hst & Hsv & Hfl & Hcm & Hcf & Hgw & Hcw & Hall).
  assert (Hcontent : ∀ i g l, pool c !! i = Some g → next g = Some l →
            l ≠ LLock serviceM → ∃ i c', step c (Sched i) = Some c').
  { intros i g l Hi Hl Hne. destruct content as [| | k]; [| done |].
    - exists i. eapply can_act; eauto. intros [] ->; [simpl; by rewrite Hcm | done].
    - simpl in Hcw. apply lookup_lt_is_Some_2 in Hcw as [gk Hk].
      destruct (Hall _ _ Hk) as (_ & _ & Hck & _).
      destruct (in_content_next gk) as (lk & Hlk & Hnl); [by apply Hck |].
      exists k. eapply can_act; eauto. intros m ->. by destruct (Hnl m). }
  destruct (decide (Forall (λ g, idle g = true) (pool c))) as [Hidle | Hbusy].
  - rewrite Forall_lookup in Hidle. destruct gate as [| | k].
    + destruct (decide (Forall (λ g, finished g = true) (pool c))) as [Hfin | Hnot].
      * right. intros i g Hi. left. by eapply (proj1 (Forall_lookup _ _) Hfin).
      * left. apply not_Forall_Exists in Hnot; [| apply _].
        apply Exists_exists in Hnot as (g & [i Hi]%list_elem_of_lookup & Hg).
        simpl in Hg. destruct (idle_cases g (Hidle _ _ Hi)) as [? | Hl]; [done |].
        destruct (can_act c i g _ Hal Hi Hl) as [c' Hc']; [| by eapply Hgo].
        intros m [= <-]. simpl. by rewrite Hsv.
    + right. intros i g Hi.
      destruct (idle_cases g (Hidle _ _ Hi)) as [? | Hl]; [by left | right].
      split; [by apply Hfl | done].
    + simpl in Hgw. apply lookup_lt_is_Some_2 in Hgw as [gk Hk].
      destruct (Hall _ _ Hk) as (_ & Hgk & _).
      destruct (holds_gate_next gk) as (lk & Hlk & Hnl); [by apply Hgk |].
      destruct (idle_cases gk (Hidle _ _ Hk)) as [Hf | Hl].
      * apply finished_head in Hf. unfold next in Hlk. congruence.
      * congruence.
  - left. apply not_Forall_Exists in Hbusy; [| apply _].
    apply Exists_exists in Hbusy as (g & [i Hi]%list_elem_of_lookup & Hg).
    simpl in Hg. destruct (not_idle g Hg) as (l & Hl & Hne).
    destruct (Hcontent i g l Hi Hl Hne) as (j & c' & Hc'). by eapply Hgo.
Qed.

Lemma waiting_only_while_blocked_witness :
  ∃ c,
    steps (init 0) scenario_blocked = Some c ∧
    ((∃ i c', step c (Sched i) = Some c' ∧ crashed c' = false) ∨
     (∀ i g, pool c !! i = Some g →
        finished g = true ∨
        (currentState (this (world c)) = BLOCKED ∧
         next g = Some (LLock serviceM)))).
Proof.
  eexists. split; [vm_compute; reflexivity |].
  apply (waiting_only_while_blocked 0 scenario_blocked); vm_compute; reflexivity.
Defined.

(** X14: the writers stay away from the gate: in no world does
    [SetCredentials] or [UpdateCredentials] get to lock or unlock the gate
    or to store the state flag, and the outcome of either is the same
    whether the gate is locked or not and whatever the flag reads. *)
Theorem writers_leave_the_gate_alone
    (w : World) (t k s ss : string) (gate : bool) (flag : Z) :
  Forall (λ l, touches_gate l = false) (attempts (SetCredentials t k s ss) w) ∧
  Forall (λ l, touches_gate l = false) (attempts (UpdateCredentials k s ss) w) ∧
  (∀ w', run (SetCredentials t k s ss) w = Done tt w' →
     run (SetCredentials t k s ss)
       (with_this (λ c, mkService (credentials c) (contentMutex c) gate flag) w)
     = Done tt
         (with_this (λ c, mkService (credentials c) (contentMutex c) gate flag) w')) ∧
  (∀ e w', run (UpdateCredentials k s ss) w = Done e w' →
     run (UpdateCredentials k s ss)
       (with_this (λ c, mkService (credentials c) (contentMutex c) gate flag) w)
     = Done e
         (with_this (λ c, mkService (credentials c) (contentMutex c) gate flag) w')).
Proof.
  destruct w as [[creds cm sm st] hp clk].
  split_and!.
  - destruct cm; cbn; repeat constructor.
  - unfold_calls. cbn.
    destruct (negb _); cbn; [repeat constructor |].
    destruct cm; cbn; repeat constructor.
  - intros w'. destruct cm; cbn; [done |]. by intros [= <-].
  - intros e w'. unfold_calls. cbn.
    destruct (negb _); cbn; [by intros [= <- <-] |].
    destruct cm; cbn; [done |]. by intros [= <- <-].
Qed.

Lemma writers_leave_the_gate_alone_witness :
  Forall (λ l, touches_gate l = false)
    (attempts (SetCredentials "tok2" "A" "B" "C") one_token) ∧
  Forall (λ l, touches_gate l = false)
    (attempts (UpdateCredentials "A" "B" "C") one_token) ∧
  (∀ w', run (SetCredentials "tok2" "A" "B" "C") one_token = Done tt w' →
     run (SetCredentials "tok2" "A" "B" "C")
       (with_this (λ c, mkService (credentials c) (contentMutex c) true BLOCKED)
          one_token)
     = Done tt
         (with_this (λ c, mkService (credentials c) (contentMutex c) true BLOCKED)
            w')) ∧
  (∀ e w', run (UpdateCredentials "A" "B" "C") one_token = Done e w' →
     run (UpdateCredentials "A" "B" "C")
       (with_this (λ c, mkService (credentials c) (contentMutex c) true BLOCKED)
          one_token)
     = Done e
         (with_this (λ c, mkService (credentials c) (contentMutex c) true BLOCKED)
            w')).
Proof.
  apply (writers_leave_the_gate_alone one_token "tok2" "A" "B" "C" true BLOCKED).
Defined.
